(** * A shallow embedding of [opencog-gym.py]

    The OpenCog wrapper around the CartPole environment: conversion of
    truth values to beta distributions, Thompson sampling, the two
    hardwired cognitive schematics, the placeholder deduction and the
    per-tick stepper [cartpole_step].

    Conventions of the embedding.
    - Python integers are [Z].  The doubles the program computes with
      (truth values, beta parameters, variates) are binary64 values with
      the IEEE 754 operations of the standard library's [SpecFloat].  The
      doubles it only prints (the observation and the reward of the
      environment) are carried as the rationals they denote.
    - A Python exception is a value of [PyExc]; a call that may raise
      returns [Exc A].
    - Atoms are compared by type and name (nodes) or type and outgoing set
      (links), which is what handle equality amounts to inside a single
      atomspace.  Of the atomspace only the truth values attached with the
      [tv=] keyword are tracked.
    - [print], [time.sleep] and the module-level OpenPsi registration have
      no counterpart. *)

From Stdlib Require Import QArith SpecFloat.
From stdpp Require Import base option list strings.
From Stdlib Require DecimalString DecimalPos DecimalZ.

Local Open Scope Z_scope.

(** ** Python exceptions *)

Inductive PyExc : Type :=
  | StopIteration   (* [next] on an exhausted generator *)
  | IndexError      (* list index out of range *)
  | ValueError      (* [max] of an empty sequence, [rvs] out of domain *)
  | EnvError (msg : string).  (* whatever the environment raises *)

Inductive Exc (A : Type) : Type :=
  | OK (a : A)
  | Raise (e : PyExc).
Arguments OK {A} a.
Arguments Raise {A} e.

Global Instance Exc_ret : MRet Exc := λ A a, OK a.

Global Instance Exc_bind : MBind Exc := λ A B k m,
  match m with
  | OK a => k a
  | Raise e => Raise e
  end.

(** [[f(x) for x in xs]] where [f] may raise: left to right, the first
    exception aborts the comprehension. *)
Fixpoint exc_map {A B} (f : A → Exc B) (xs : list A) : Exc (list B) :=
  match xs with
  | [] => OK []
  | x :: xs' => y ← f x; ys ← exc_map f xs'; OK (y :: ys)
  end.

(** [xs[i]] for a literal, non-negative [i]. *)
Definition py_index {A} (xs : list A) (i : nat) : Exc A :=
  match xs !! i with
  | Some x => OK x
  | None => Raise IndexError
  end.

(** ** Binary64 *)

(** Python's [float] is the IEEE 754 binary64 format.  Its values and
    operations are those of the standard library's specification of
    floating-point arithmetic at precision 53 and maximal exponent 1024:
    an operation returns the exact result rounded to nearest, ties to
    even, with signed zeros, infinities and NaN. *)
Definition float : Type := spec_float.

Definition prec64 : Z := 53.
Definition emax64 : Z := 1024.

Definition fadd : float → float → float := SFadd prec64 emax64.
Definition fsub : float → float → float := SFsub prec64 emax64.
Definition fmul : float → float → float := SFmul prec64 emax64.
Definition fdiv : float → float → float := SFdiv prec64 emax64.

(** [x < y], [x <= y] and [x == y]; each is false when an operand is NaN. *)
Definition flt : float → float → bool := SFltb.
Definition fle : float → float → bool := SFleb.
Definition feq : float → float → bool := SFeqb.

(** [float(z)] for a Python integer [z] below [2 ** 1024]. *)
Definition float_of_Z (z : Z) : float :=
  binary_normalize prec64 emax64 z 0 false.

(** The decimal literal that denotes [n / d], for [n] and [d] below
    [2 ** 53]: both convert exactly and the quotient is rounded once,
    which gives the double nearest to the literal. *)
Definition float_literal (n d : Z) : float :=
  fdiv (float_of_Z n) (float_of_Z d).

(** [0.0], [1.0], [0.9] and [0.1]. *)
Definition f_0 : float := Eval vm_compute in float_of_Z 0.
Definition f_1 : float := Eval vm_compute in float_of_Z 1.
Definition f_0_9 : float := Eval vm_compute in float_literal 9 10.
Definition f_0_1 : float := Eval vm_compute in float_literal 1 10.

Definition is_finite (x : float) : bool :=
  match x with
  | S754_zero _ | S754_finite _ _ _ => true
  | S754_infinity _ | S754_nan => false
  end.

Definition is_nan (x : float) : bool :=
  match x with S754_nan => true | _ => false end.

(** The values of the format: mantissa and exponent within its bounds. *)
Definition is_double (x : float) : bool := valid_binary prec64 emax64 x.

(** ** Truth values *)

(** Modelled from the spec: [TruthValue] is the class of
    [opencog.atomspace], which is not part of the repository.  Following
    the spec's data model it is a pair of a strength, read back as
    [tv.mean], and an evidential count, read back as [tv.count]; both are
    doubles. *)
Record TruthValue : Type := mkTruthValue { tv_mean : float; tv_count : float }.

Definition TRUE_TV : TruthValue := mkTruthValue f_1 f_1.

(** The frozen distribution object returned by [scipy.stats.beta(a, b)]:
    only its two shape parameters matter here. *)
Record BetaDist : Type := beta { beta_a : float; beta_b : float }.

Definition tv_to_beta (tv : TruthValue) (prior_a prior_b : float) : BetaDist :=
  let count := tv_count tv in
  let pos_count := fmul count (tv_mean tv) in
  let a := fadd prior_a pos_count in
  let b := fsub (fadd prior_b count) pos_count in
  beta a b.

(** [tv_to_beta(tv)]: both keyword arguments left at their default [1]. *)
Definition tv_to_beta_default (tv : TruthValue) : BetaDist :=
  tv_to_beta tv f_1 f_1.

(** [rvs] draws only from a beta distribution whose two parameters are
    greater than zero, and raises [ValueError] otherwise. *)
Definition beta_argcheck (d : BetaDist) : bool :=
  flt f_0 (beta_a d) && flt f_0 (beta_b d).

(** ** Atoms *)

Inductive AtomType : Type :=
  | SchemaNode | NumberNode | PredicateNode | VariableNode | TypeNode
  | TimeNode | GroundedPredicateNode
  | EvaluationLink | ExecutionLink | AndLink | GreaterThanLink
  | TypedVariableLink | PredictiveImplicationScopeLink | AtTimeLink
  | ListLink.

Global Instance AtomType_eq_dec : EqDecision AtomType.
Proof. solve_decision. Defined.

#[warnings="-register-all"]
Inductive Atom : Type :=
  | Node (t : AtomType) (name : string)
  | Link (t : AtomType) (outgoing : list Atom).

Definition Atom_eq_dec : ∀ x y : Atom, {x = y} + {x ≠ y}.
Proof.
  fix IH 1.
  intros [t n | t o] [t' n' | t' o']; try (right; discriminate).
  - destruct (decide (t = t')) as [-> | Ht]; [| right; congruence].
    destruct (decide (n = n')) as [-> | Hn]; [left | right; congruence].
    reflexivity.
  - destruct (decide (t = t')) as [-> | Ht]; [| right; congruence].
    destruct (List.list_eq_dec IH o o') as [-> | Ho];
      [left | right; congruence].
    reflexivity.
Defined.

Global Instance Atom_eqdec : EqDecision Atom := Atom_eq_dec.

(** [atom.type] and [atom.out]; a node has an empty outgoing set. *)
Definition atom_type (x : Atom) : AtomType :=
  match x with Node t _ => t | Link t _ => t end.

Definition out (x : Atom) : list Atom :=
  match x with Node _ _ => [] | Link _ o => o end.

(** ** Translation of actions *)

(** A Python function that falls off its end returns [None]; the result is
    therefore an optional integer. *)
Definition action_to_gym (action : Atom) : option Z :=
  if decide (Node SchemaNode "Go Right" = action) then Some 0
  else if decide (Node SchemaNode "Go Left" = action) then Some 1
  else None.

(** ** Extraction of the action of a cognitive schematic *)

(** [next(x for x in xs if p(x))] *)
Definition py_next_filter {A} (p : A → bool) (xs : list A) : Exc A :=
  match List.find p xs with
  | Some x => OK x
  | None => Raise StopIteration
  end.

Definition is_execution (x : Atom) : bool :=
  bool_decide (atom_type x = ExecutionLink).

Definition get_action (cs : Atom) : Exc Atom :=
  body ← py_index (out cs) 2;
  let cnjs := out body in
  execution ← py_next_filter is_execution cnjs;
  py_index (out execution) 0.

(** ** Translation of observations and rewards *)

(** The values [str] is applied to: Python integers and the doubles handed
    over by the environment.  [str] of a double is taken from the
    interpreter. *)
Inductive PyNum : Type :=
  | PyInt (z : Z)
  | PyFloat (x : Q).

Class PyFloatRepr : Type := float_str : Q → string.

Definition py_str `{PyFloatRepr} (v : PyNum) : string :=
  match v with
  | PyInt z => DecimalString.NilZero.string_of_int (Z.to_int z)
  | PyFloat x => float_str x
  end.

(** The observation vector of CartPole has four channels; [observation[k]]
    for [k = 0..3] reads the [k]-th field. *)
Record Observation : Type := mkObservation {
  cart_position : Q;
  cart_velocity : Q;
  pole_angle : Q;
  pole_velocity_at_tip : Q
}.

Section Atomese.
Context `{PyFloatRepr}.

Definition observation_to_atomese (observation : Observation) : list Atom :=
  let cp := Node NumberNode (py_str (PyFloat (cart_position observation))) in
  let cv := Node NumberNode (py_str (PyFloat (cart_velocity observation))) in
  let pa := Node NumberNode (py_str (PyFloat (pole_angle observation))) in
  let pvat :=
    Node NumberNode (py_str (PyFloat (pole_velocity_at_tip observation))) in
  [Link EvaluationLink [Node PredicateNode "Cart Position"; cp];
   Link EvaluationLink [Node PredicateNode "Cart Velocity"; cv];
   Link EvaluationLink [Node PredicateNode "Pole Angle"; pa];
   Link EvaluationLink [Node PredicateNode "Cart Velocity At Tip"; pvat]].

Definition reward_to_atomese (reward : PyNum) : Atom :=
  let rn := Node NumberNode (py_str reward) in
  Link EvaluationLink [Node PredicateNode "Reward"; rn].

Definition make_goal (ci : Z) : Atom := reward_to_atomese (PyInt 1).
End Atomese.

(** ** Python's [max(xs, key=...)] *)

(** The first element is the initial maximum; a later element replaces it
    only when its key is strictly greater. *)
Definition max_step {A} (key : A → float) (maxitem item : A) : A :=
  if flt (key maxitem) (key item) then item else maxitem.

Definition py_max {A} (key : A → float) (xs : list A) : Exc A :=
  match xs with
  | [] => Raise ValueError
  | x :: xs' => OK (fold_left (max_step key) xs' x)
  end.

(** ** Sets of atoms *)

(** A Python set keeps one copy of each inserted element and iterates in an
    order of its own.  [set_iter l] is the iteration order of the set built
    by inserting the elements of [l] one after the other. *)
Class SetOrder : Type := {
  set_iter : list Atom → list Atom;
  set_iter_perm : ∀ l, set_iter l ≡ₚ remove_dups l
}.

Definition ActionDistribution : Type := list (Atom * TruthValue).

Definition deduce `{SetOrder} (css : list Atom) : Exc ActionDistribution :=
  inserted ← exc_map get_action css;
  let actions := set_iter inserted in
  let tv := mkTruthValue f_1 f_0 in
  OK (map (λ action, (action, tv)) actions).

(** ** External collaborators *)

(** The process-wide random source behind [scipy]'s [rvs]: drawing from a
    frozen beta distribution whose parameters passed [beta_argcheck]
    yields a double and advances the generator. *)
Class RandomSource : Type := {
  RNG : Type;
  beta_rvs : BetaDist → RNG → float * RNG
}.

(** The Gym environment object [env].  [env.step] receives what
    [action_to_gym] returned ([None] included) and may raise.  [X_ENABLED]
    tells whether a display is there to render on. *)
Class GymEnv : Type := {
  Env : Type;
  StepInfo : Type;
  env_step : Env → option Z → Exc (Observation * Q * bool * StepInfo) * Env;
  env_render : Env → Env;
  env_close : Env → Env;
  X_ENABLED : bool
}.

(** ** The state of the process *)

(** Truth values attached to atoms, most recent first. *)
Definition AtomSpace : Type := list (Atom * TruthValue).

Definition atomspace_tv (a : AtomSpace) (x : Atom) : option TruthValue :=
  snd <$> List.find (λ p, bool_decide (p.1 = x)) a.

Section Agent.
Context `{PyFloatRepr, RandomSource, GymEnv, SetOrder}.

(** The default atomspace [a], the random source, and the module globals
    [env], [observation] and [cartpole_step_count]. *)
Record World : Type := mkWorld {
  atomspace : AtomSpace;
  rng : RNG;
  env : Env;
  observation : Observation;
  cartpole_step_count : Z
}.

(** A computation reads and writes the world and may raise; what was
    written before an exception stays written. *)
Definition M (A : Type) : Type := World → Exc A * World.

Global Instance M_ret : MRet M := λ A a w, (OK a, w).

Global Instance M_bind : MBind M := λ A B k m w,
  match m w with
  | (OK a, w') => k a w'
  | (Raise e, w') => (Raise e, w')
  end.

Definition lift {A} (r : Exc A) : M A := λ w, (r, w).

Definition get_world : M World := λ w, (OK w, w).

Definition modify (f : World → World) : M unit := λ w, (OK tt, f w).

(** [[f(x) for x in xs]] where [f] has effects. *)
Fixpoint m_map {A B} (f : A → M B) (xs : list A) : M (list B) :=
  match xs with
  | [] => mret []
  | x :: xs' => y ← f x; ys ← m_map f xs'; mret (y :: ys)
  end.

(** A link constructor called with the keyword [tv=]: the link is
    returned and, unless [tv] is [None], its truth value is set. *)
Definition new_link (t : AtomType) (outgoing : list Atom)
    (tv : option TruthValue) : M Atom :=
  let l := Link t outgoing in
  match tv with
  | Some v =>
      _ ← modify (λ w, mkWorld ((l, v) :: atomspace w) (rng w) (env w)
                         (observation w) (cartpole_step_count w));
      mret l
  | None => mret l
  end.

Definition timestamp (atom : Atom) (i : Z) (tv : option TruthValue) : M Atom :=
  new_link AtTimeLink [atom; Node TimeNode (py_str (PyInt i))] tv.

Definition plan (goal : Atom) (expiry : PyNum) : M (list Atom) :=
  let angle := Node VariableNode "$angle" in
  let numt := Node TypeNode "NumberNode" in
  let time_offset := Node NumberNode (py_str expiry) in
  let pole_angle := Node PredicateNode "Pole Angle" in
  let go_right := Node SchemaNode "Go Right" in
  let go_left := Node SchemaNode "Go Left" in
  let reward := Node PredicateNode "Reward" in
  let zero := Node NumberNode "0" in
  let unit := Node NumberNode "1" in
  let TV := mkTruthValue f_0_9 f_0_1 in
  cs_r ←
    new_link PredictiveImplicationScopeLink
      [Link TypedVariableLink [angle; numt];
       time_offset;
       Link AndLink
         [Link EvaluationLink [pole_angle; angle];
          Link GreaterThanLink [angle; zero];
          Link ExecutionLink [go_right]];
       Link EvaluationLink [reward; unit]]
      (Some TV);
  cs_l ←
    new_link PredictiveImplicationScopeLink
      [Link TypedVariableLink [angle; numt];
       time_offset;
       Link AndLink
         [Link EvaluationLink [pole_angle; angle];
          Link GreaterThanLink [zero; angle];
          Link ExecutionLink [go_left]];
       Link EvaluationLink [reward; unit]]
      (Some TV);
  mret [cs_l; cs_r].

Definition tv_rv (tv : TruthValue) : M float := λ w,
  let beta := tv_to_beta_default tv in
  if beta_argcheck beta then
    let '(x, g) := beta_rvs beta (rng w) in
    (OK x, mkWorld (atomspace w) g (env w) (observation w)
             (cartpole_step_count w))
  else (Raise ValueError, w).

Definition thompson_sample (actdist : ActionDistribution)
    : M (Atom * float) :=
  actps ← m_map (λ '(action, tv), p ← tv_rv tv; mret (action, p)) actdist;
  lift (py_max snd actps).

Definition decide (actdist : ActionDistribution) : M (Atom * float) :=
  '(action, pblty) ← thompson_sample actdist;
  mret (action, pblty).

(** [env.render()], [env.step(...)] and [env.close()] on the global
    [env]. *)
Definition render : M unit :=
  modify (λ w, mkWorld (atomspace w) (rng w) (env_render (env w))
                 (observation w) (cartpole_step_count w)).

Definition step (gym_action : option Z)
    : M (Observation * Q * bool * StepInfo) := λ w,
  let '(r, e) := env_step (env w) gym_action in
  (r, mkWorld (atomspace w) (rng w) e (observation w)
        (cartpole_step_count w)).

Definition close : M unit :=
  modify (λ w, mkWorld (atomspace w) (rng w) (env_close (env w))
                 (observation w) (cartpole_step_count w)).

Definition cartpole_step : M TruthValue :=
  w ← get_world;
  let i := cartpole_step_count w in
  let atomese_obs := observation_to_atomese (observation w) in
  timestamped_obs ← m_map (λ o, timestamp o i (Some TRUE_TV)) atomese_obs;
  let goal := make_goal i in
  _ ← (if X_ENABLED then render else mret tt);
  let expiry := PyInt 1 in
  css ← plan goal expiry;
  actdist ← lift (deduce css);
  '(action, pblty) ← decide actdist;
  let gym_action := action_to_gym action in
  '(observation', reward, done, info) ← step gym_action;
  _ ← modify (λ w, mkWorld (atomspace w) (rng w) (env w) observation'
                     (cartpole_step_count w));
  timestamped_reward ←
    timestamp (reward_to_atomese (PyFloat reward)) i (Some TRUE_TV);
  _ ← modify (λ w, mkWorld (atomspace w) (rng w) (env w) (observation w)
                     (cartpole_step_count w + 1));
  if done : bool then
    _ ← close;
    mret (mkTruthValue f_0 f_1)
  else mret (mkTruthValue f_1 f_1).
End Agent.

(** ** Concrete collaborators

    Small instances of the interfaces above, on which the definitions can
    be run. *)

(** [str] of a double, as numerator and denominator. *)
Global Instance ratio_repr : PyFloatRepr := λ x,
  DecimalString.NilZero.string_of_int (Z.to_int (Qnum x)) +:+ "/" +:+
  DecimalString.NilZero.string_of_int (Z.to_int (Z.pos (Qden x))).

(** A set that iterates in the order [remove_dups] leaves. *)
Global Instance canonical_order : SetOrder := {|
  set_iter := remove_dups;
  set_iter_perm := λ l, reflexivity (remove_dups l)
|}.

(** A random source that replays a list of variates drawn beforehand. *)
Global Instance replay_source : RandomSource := {|
  RNG := list float;
  beta_rvs := λ _ g,
    match g with
    | x :: g' => (x, g')
    | [] => (float_literal 1 2, [])
    end
|}.

(** An environment that counts down the steps left in the episode, pays a
    reward of one per step and never moves the cart. *)
Global Instance countdown_env : GymEnv := {|
  Env := nat;
  StepInfo := unit;
  env_step := λ e _,
    (OK (mkObservation 0 0 0 0, 1%Q, bool_decide (e ≤ 1)%nat, tt), pred e);
  env_render := λ e, e;
  env_close := λ _, O;
  X_ENABLED := false
|}.

(** The schematic of [plan] for "Go Left", with expiry 1, and a body with
    two execution clauses. *)
Definition sample_schematic (body : list Atom) : Atom :=
  Link PredictiveImplicationScopeLink
    [Link TypedVariableLink
       [Node VariableNode "$angle"; Node TypeNode "NumberNode"];
     Node NumberNode "1";
     Link AndLink body;
     Link EvaluationLink [Node PredicateNode "Reward"; Node NumberNode "1"]].

Definition go_left_body : list Atom :=
  [Link EvaluationLink
     [Node PredicateNode "Pole Angle"; Node VariableNode "$angle"];
   Link GreaterThanLink [Node NumberNode "0"; Node VariableNode "$angle"];
   Link ExecutionLink [Node SchemaNode "Go Left"]].

Definition go_right_body : list Atom :=
  [Link EvaluationLink
     [Node PredicateNode "Pole Angle"; Node VariableNode "$angle"];
   Link GreaterThanLink [Node VariableNode "$angle"; Node NumberNode "0"];
   Link ExecutionLink [Node SchemaNode "Go Right"]].

Definition two_executions_body : list Atom :=
  [Link EvaluationLink
     [Node PredicateNode "Pole Angle"; Node VariableNode "$angle"];
   Link ExecutionLink [Node SchemaNode "Go Left"];
   Link ExecutionLink [Node SchemaNode "Go Right"]].

Definition initial_world : World :=
  mkWorld []
    [float_literal 3 10; float_literal 7 10; float_literal 7 10]
    2%nat (mkObservation 0 0 (1 # 20) 0) 0.

(** ** Vocabulary of the statements *)

(** The execution clauses of a body, in their order. *)
Definition execution_clauses (body : Atom) : list Atom :=
  filter (λ x, atom_type x = ExecutionLink) (out body).

(** The context clauses of a body: everything but its execution clauses. *)
Definition context_clauses (body : Atom) : list Atom :=
  filter (λ x, atom_type x ≠ ExecutionLink) (out body).

(** "pole-angle > 0" and "pole-angle < 0" as conjuncts over the variable
    [$angle]. *)
Definition pole_angle_positive : list Atom :=
  [Link EvaluationLink
     [Node PredicateNode "Pole Angle"; Node VariableNode "$angle"];
   Link GreaterThanLink [Node VariableNode "$angle"; Node NumberNode "0"]].

Definition pole_angle_negative : list Atom :=
  [Link EvaluationLink
     [Node PredicateNode "Pole Angle"; Node VariableNode "$angle"];
   Link GreaterThanLink [Node NumberNode "0"; Node VariableNode "$angle"]].

(** A cognitive schematic in the format of the docstrings: a
    [PredictiveImplicationScope] whose second outgoing atom is the expiry
    and whose third is a conjunction of the context clauses and of one
    execution of the action. *)
Definition is_schematic (cs : Atom) (expiry : string) (context : list Atom)
    (action : Atom) : Prop :=
  atom_type cs = PredictiveImplicationScopeLink ∧
  out cs !! 1%nat = Some (Node NumberNode expiry) ∧
  ∃ body, out cs !! 2%nat = Some body ∧
    atom_type body = AndLink ∧
    context_clauses body = context ∧
    execution_clauses body = [Link ExecutionLink [action]].

(** Well-formed schematics: the body holds exactly one execution clause,
    and that clause names an action. *)
Definition well_formed (cs : Atom) : bool :=
  match out cs !! 2%nat with
  | Some body =>
      match execution_clauses body with
      | [execution] =>
          match out execution with [] => false | _ :: _ => true end
      | _ => false
      end
  | None => false
  end.

(** The action token of a schematic: the first outgoing atom of the one
    execution clause of its body, when the body has exactly one. *)
Definition schematic_action (cs : Atom) : option Atom :=
  match out cs !! 2%nat with
  | Some body =>
      match execution_clauses body with
      | [execution] => head (out execution)
      | _ => None
      end
  | None => None
  end.

(** ** The values of doubles *)

(** The real number a double denotes is an integer multiple of
    [2 ^ -1074]; the product of two such numbers is a multiple of
    [2 ^ -2148].  All of them are carried as integers, in units of
    [2 ^ -scale64]. *)
Definition scale64 : Z := 2200.
Definition emin64 : Z := -1074.

(** [M / 2 ^ k] rounded to the nearest integer, ties to even. *)
Definition RNE (k M : Z) : Z :=
  let q := M / 2 ^ k in
  match 2 * (M mod 2 ^ k) ?= 2 ^ k with
  | Lt => q
  | Gt => q + 1
  | Eq => if Z.even q then q else q + 1
  end.

(** The exponent of the last place of the doubles around the value [V]:
    53 significant bits, and no finer than the subnormal spacing. *)
Definition rnd_exp (V : Z) : Z := Z.max (Z.log2 V - 52) (emin64 + scale64).

(** The nearest double to the value [V ≥ 0], were the exponent range
    unbounded above. *)
Definition rnd (V : Z) : Z := RNE (rnd_exp V) V * 2 ^ rnd_exp V.

(** The same with overflow: a result that rounds to [2 ^ 1024] or above
    is an infinity, which gets the value [2 ^ 1024]. *)
Definition rndo (V : Z) : Z := Z.min (rnd V) (2 ^ (emax64 + scale64)).

(** Rounding of a signed value. *)
Definition srndo (V : Z) : Z := if V <? 0 then - rndo (- V) else rndo V.

(** The record after [n] right shifts of the exact mantissa [M]. *)
Definition shifted (M : Z) (n : nat) : shr_record :=
  match n with
  | O => Build_shr_record M false false
  | S n' =>
      Build_shr_record (M / 2 ^ Z.of_nat n)
        (Z.odd (M / 2 ^ Z.of_nat n'))
        (negb (M mod 2 ^ Z.of_nat n' =? 0))
  end.

(** The value of a double, in units of [2 ^ -scale64]; an infinity
    counts as [2 ^ 1024] with its sign. *)
Definition fval (x : float) : Z :=
  match x with
  | S754_zero _ => 0
  | S754_finite s m e => cond_Zopp s (Zpos m * 2 ^ (e + scale64))
  | S754_infinity s => cond_Zopp s (2 ^ (emax64 + scale64))
  | S754_nan => 0
  end.

(** Finite and not negative: a zero of either sign or a positive number. *)
Definition is_nonneg (x : float) : bool :=
  match x with
  | S754_zero _ | S754_finite false _ _ => true
  | _ => false
  end.

(** [r] is the first element of [xs] whose key no other element exceeds:
    nothing has a greater key, and everything before position [i] has a
    strictly smaller one. *)
Definition first_argmax {A} (key : A → float) (xs : list A) (i : nat) (r : A)
    : Prop :=
  xs !! i = Some r ∧
  (∀ j y, xs !! j = Some y → fle (key y) (key r) = true) ∧
  (∀ j y, (j < i)%nat → xs !! j = Some y → flt (key y) (key r) = true).

Section Vocabulary.
Context `{RandomSource, GymEnv}.

(** The variates of an action distribution: one draw per entry, from the
    beta distribution of its truth value with the default priors, in the
    order of the list, each draw advancing the generator. *)
Fixpoint variates (actdist : ActionDistribution) (g : RNG)
    : list float * RNG :=
  match actdist with
  | [] => ([], g)
  | (_, tv) :: rest =>
      let '(x, g1) := beta_rvs (tv_to_beta tv f_1 f_1) g in
      let '(xs, g2) := variates rest g1 in
      (x :: xs, g2)
  end.

Definition with_rng (w : World) (g : RNG) : World :=
  mkWorld (atomspace w) g (env w) (observation w) (cartpole_step_count w).

Definition with_atomspace (w : World) (a : AtomSpace) : World :=
  mkWorld a (rng w) (env w) (observation w) (cartpole_step_count w).

(** The environment as [env.step] finds it: rendered first when a
    display is there. *)
Definition env_at_step (w : World) : Env :=
  if X_ENABLED then env_render (env w) else env w.
End Vocabulary.

(** An atom stamped with the step index [i], as [timestamp] builds it. *)
Definition stamped `{PyFloatRepr} (atom : Atom) (i : Z) : Atom :=
  Link AtTimeLink [atom; Node TimeNode (py_str (PyInt i))].

(** The generator after [n] draws from the beta distribution of [tv]. *)
Definition draws_after `{RandomSource} (tv : TruthValue) (n : nat) (g : RNG)
    : RNG :=
  Nat.iter n (λ g', (beta_rvs (tv_to_beta tv f_1 f_1) g').2) g.

Section Repetition.
Context `{PyFloatRepr, RandomSource, GymEnv, SetOrder}.

(** [n] calls of [cartpole_step], one after the other; an exception ends
    the sequence. *)
Fixpoint ticks (n : nat) : M (list TruthValue) :=
  match n with
  | O => mret []
  | S n' => tv ← cartpole_step; tvs ← ticks n'; mret (tv :: tvs)
  end.
End Repetition.

(** * Properties *)

(** ** Helper lemmas *)

Lemma py_next_filter_filter {A} (p : A → bool) (xs : list A) :
  py_next_filter p xs =
    match filter (λ x, p x = true) xs with
    | x :: _ => OK x
    | [] => Raise StopIteration
    end.
Proof.
  unfold py_next_filter.
  induction xs as [| x xs IH]; [reflexivity |].
  rewrite filter_cons. simpl.
  destruct (p x) eqn:Hp.
  - rewrite decide_True by reflexivity. reflexivity.
  - rewrite decide_False by discriminate. exact IH.
Qed.

Lemma execution_clauses_filter (body : Atom) :
  execution_clauses body = filter (λ x, is_execution x = true) (out body).
Proof.
  unfold execution_clauses. apply list_filter_iff. intros x.
  unfold is_execution. rewrite bool_decide_eq_true. reflexivity.
Qed.

Lemma get_action_body (cs body : Atom) :
  out cs !! 2%nat = Some body →
  get_action cs =
    match execution_clauses body with
    | execution :: _ => py_index (out execution) 0
    | [] => Raise StopIteration
    end.
Proof.
  intros Hbody. unfold get_action.
  replace (py_index (out cs) 2) with (OK body)
    by (unfold py_index; rewrite Hbody; reflexivity).
  simpl. rewrite py_next_filter_filter, <- execution_clauses_filter.
  destruct (execution_clauses body); reflexivity.
Qed.

(** ** Action translation *)

(** C1 (as amended): [action_to_gym] maps [SchemaNode "Go Right"] to [0] and
    [SchemaNode "Go Left"] to [1]; on every other atom it returns [None],
    and these are the only atoms on which it does. *)
Theorem action_to_gym_table :
  action_to_gym (Node SchemaNode "Go Right") = Some 0 ∧
  action_to_gym (Node SchemaNode "Go Left") = Some 1 ∧
  ∀ action : Atom,
    action_to_gym action = None ↔
    action ≠ Node SchemaNode "Go Right" ∧
    action ≠ Node SchemaNode "Go Left".
Proof.
  split; [reflexivity |]. split; [reflexivity |].
  intros action. unfold action_to_gym.
  repeat case_decide; split; try discriminate; try tauto.
  - intros [Hr _]. congruence.
  - intros [_ Hl]. congruence.
  - intros _. split; congruence.
Qed.

(** C1, counterexample: on the unknown token [SchemaNode "Jump"] the
    translation returns Python's [None]; nothing is raised. *)
Lemma action_to_gym_unknown_returns :
  action_to_gym (Node SchemaNode "Jump") = None.
Proof. reflexivity. Qed.

(** ** Action extraction *)

(** C2 (as amended): for a schematic whose third outgoing atom is [body],
    [get_action] returns the action token of the first execution clause
    of [body] whenever there is at least one, in particular when there
    is exactly one, and raises [StopIteration] when there is none. *)
Theorem get_action_first_execution (cs body : Atom) :
  out cs !! 2%nat = Some body →
  (∀ execution rest action,
     execution_clauses body = execution :: rest →
     out execution !! 0%nat = Some action →
     get_action cs = OK action) ∧
  (execution_clauses body = [] → get_action cs = Raise StopIteration).
Proof.
  intros Hbody. rewrite (get_action_body _ _ Hbody). split.
  - intros execution rest action -> Haction.
    unfold py_index. rewrite Haction. reflexivity.
  - intros ->. reflexivity.
Qed.

Lemma get_action_first_execution_witness :
  get_action (sample_schematic go_left_body)
    = OK (Node SchemaNode "Go Left") ∧
  get_action (sample_schematic [Node PredicateNode "Pole Angle"]) =
    Raise StopIteration.
Proof.
  split.
  - eapply (get_action_first_execution (sample_schematic go_left_body));
      [reflexivity | reflexivity | reflexivity].
  - apply (get_action_first_execution
             (sample_schematic [Node PredicateNode "Pole Angle"]) _ eq_refl).
    reflexivity.
Defined.

(** C2, counterexample: a body with two execution clauses is not rejected;
    the action of the first one is returned. *)
Lemma get_action_two_executions :
  execution_clauses (Link AndLink two_executions_body) =
    [Link ExecutionLink [Node SchemaNode "Go Left"];
     Link ExecutionLink [Node SchemaNode "Go Right"]] ∧
  get_action (sample_schematic two_executions_body) =
    OK (Node SchemaNode "Go Left").
Proof. split; reflexivity. Qed.

(** ** The order of doubles *)

Ltac float_cases :=
  unfold flt, fle, SFltb, SFleb, SFcompare in *;
  repeat match goal with
    | |- context [Pos.compare_cont Eq ?a ?b] =>
        change (Pos.compare_cont Eq a b) with (Pos.compare a b);
        destruct (Pos.compare_spec a b)
    | H : context [Pos.compare_cont Eq ?a ?b] |- _ =>
        change (Pos.compare_cont Eq a b) with (Pos.compare a b) in H;
        destruct (Pos.compare_spec a b)
    | |- context [Z.compare ?a ?b] => destruct (Z.compare_spec a b)
    | H : context [Z.compare ?a ?b] |- _ => destruct (Z.compare_spec a b)
    end;
  simpl in *; try congruence; try lia.

Lemma fle_refl (x : float) : is_nan x = false → fle x x = true.
Proof. destruct x as [[] | [] | | [] m e]; simpl; try done; float_cases. Qed.

Lemma flt_fle (x y : float) : flt x y = true → fle x y = true.
Proof.
  unfold flt, fle, SFltb, SFleb. destruct (SFcompare x y) as [[] |]; done.
Qed.

Lemma flt_false_fle (x y : float) :
  is_nan x = false → is_nan y = false → flt x y = false → fle y x = true.
Proof.
  destruct x as [[] | [] | | [] mx ex], y as [[] | [] | | [] my ey];
    simpl; try done; intros _ _; float_cases.
Qed.

Lemma fle_flt_trans (x y z : float) :
  fle x y = true → flt y z = true → flt x z = true.
Proof.
  destruct x as [[] | [] | | [] mx ex], y as [[] | [] | | [] my ey],
    z as [[] | [] | | [] mz ez];
    simpl; try done; float_cases.
Qed.

(** ** Rounding to nearest, ties to even *)

Lemma pow2_pos (n : Z) : 0 <= n → 0 < 2 ^ n.
Proof. intros. apply Z.pow_pos_nonneg; lia. Qed.

Lemma RNE_bounds (k M : Z) : M / 2 ^ k <= RNE k M <= M / 2 ^ k + 1.
Proof.
  unfold RNE. destruct (_ ?= _); [destruct (Z.even _) | |]; lia.
Qed.

Lemma RNE_mono (k M1 M2 : Z) :
  0 <= k → M1 <= M2 → RNE k M1 <= RNE k M2.
Proof.
  intros Hk HM. pose proof (pow2_pos k Hk) as Hp.
  pose proof (Z.div_le_mono M1 M2 (2 ^ k) Hp HM) as Hq.
  destruct (Z.eq_dec (M1 / 2 ^ k) (M2 / 2 ^ k)) as [Heq | Hne].
  - assert (Hr : M1 mod 2 ^ k <= M2 mod 2 ^ k).
    { pose proof (Z.div_mod M1 (2 ^ k)). pose proof (Z.div_mod M2 (2 ^ k)).
      nia. }
    unfold RNE. rewrite Heq.
    destruct (Z.compare_spec (2 * (M1 mod 2 ^ k)) (2 ^ k)),
      (Z.compare_spec (2 * (M2 mod 2 ^ k)) (2 ^ k));
      try destruct (Z.even _); lia.
  - pose proof (RNE_bounds k M1). pose proof (RNE_bounds k M2). lia.
Qed.

Lemma RNE_exact (k q : Z) : 0 <= k → RNE k (q * 2 ^ k) = q.
Proof.
  intros Hk. pose proof (pow2_pos k Hk) as Hp. unfold RNE.
  rewrite Z.div_mul, Z.mod_mul by lia.
  destruct (Z.compare_spec (2 * 0) (2 ^ k)); lia.
Qed.

Lemma RNE_shift (j k M : Z) :
  0 <= j → 0 <= k → RNE (k + j) (M * 2 ^ j) = RNE k M.
Proof.
  intros Hj Hk. pose proof (pow2_pos k Hk). pose proof (pow2_pos j Hj).
  unfold RNE. rewrite Z.pow_add_r by lia.
  rewrite Z.div_mul_cancel_r by lia.
  rewrite Z.mul_mod_distr_r by lia.
  replace (2 * (M mod 2 ^ k * 2 ^ j)) with ((2 * (M mod 2 ^ k)) * 2 ^ j) by ring.
  destruct (Z.compare_spec (2 * (M mod 2 ^ k) * 2 ^ j) (2 ^ k * 2 ^ j)),
    (Z.compare_spec (2 * (M mod 2 ^ k)) (2 ^ k)); try reflexivity; nia.
Qed.

Lemma rnd_exp_pos V : 0 < rnd_exp V.
Proof. unfold rnd_exp, emin64, scale64. lia. Qed.

Lemma rnd_exp_mono V1 V2 : V1 <= V2 → rnd_exp V1 <= rnd_exp V2.
Proof.
  intros. unfold rnd_exp. pose proof (Z.log2_le_mono V1 V2). lia.
Qed.

Lemma rnd_mono (V1 V2 : Z) : 0 <= V1 → V1 <= V2 → rnd V1 <= rnd V2.
Proof.
  intros H0 H12. pose proof (rnd_exp_mono _ _ H12) as Ht.
  pose proof (rnd_exp_pos V1) as Ht1. pose proof (rnd_exp_pos V2) as Ht2.
  unfold rnd.
  destruct (Z.eq_dec (rnd_exp V1) (rnd_exp V2)) as [Heq | Hne].
  - rewrite Heq. apply Z.mul_le_mono_nonneg_r.
    + pose proof (pow2_pos (rnd_exp V2)). lia.
    + apply RNE_mono; lia.
  - assert (Hlt : rnd_exp V1 + 1 <= rnd_exp V2) by lia.
    set (t1 := rnd_exp V1) in *. set (t2 := rnd_exp V2) in *.
    assert (HV2 : 0 < V2).
    { destruct (Z.le_gt_cases V2 0) as [Hle | Hgt]; [| lia].
      exfalso. assert (V1 = 0) by lia. subst V1.
      unfold t1, t2, rnd_exp in *.
      rewrite (Z.log2_nonpos V2 Hle) in *. simpl in *. lia. }
    (* upper bound for the first *)
    assert (H1 : RNE t1 V1 <= 2 ^ 53).
    { assert (V1 <= 2 ^ 53 * 2 ^ t1).
      { destruct (Z.eq_dec V1 0) as [-> | Hn].
        - pose proof (pow2_pos t1). nia.
        - pose proof (Z.log2_spec V1) as Hs.
          assert (Z.log2 V1 + 1 <= 53 + t1) by (unfold t1, rnd_exp; lia).
          rewrite <- Z.pow_add_r by lia.
          pose proof (Z.pow_le_mono_r 2 (Z.succ (Z.log2 V1)) (53 + t1)). lia. }
      rewrite <- (RNE_exact t1 (2 ^ 53)) by lia. apply RNE_mono; lia. }
    assert (H2 : 2 ^ 52 <= RNE t2 V2).
    { assert (2 ^ 52 * 2 ^ t2 <= V2).
      { pose proof (Z.log2_spec V2 HV2) as Hs.
        assert (Hl : Z.log2 V2 = 52 + t2).
        { unfold t2, t1, rnd_exp in *. lia. }
        rewrite Hl in Hs. rewrite <- Z.pow_add_r by lia. lia. }
      rewrite <- (RNE_exact t2 (2 ^ 52)) by lia. apply RNE_mono; lia. }
    assert (Hp1 : 0 < 2 ^ t1) by (apply pow2_pos; lia).
    assert (Hp : 2 ^ t2 = 2 ^ (t2 - t1 - 1) * 2 * 2 ^ t1).
    { replace t2 with ((t2 - t1 - 1) + 1 + t1) at 1 by lia.
      rewrite !Z.pow_add_r by lia. reflexivity. }
    assert (Hq : 1 <= 2 ^ (t2 - t1 - 1)) by (pose proof (pow2_pos (t2 - t1 - 1)); lia).
    rewrite Hp.
    assert (RNE t1 V1 * 2 ^ t1 <= 2 ^ 53 * 2 ^ t1) by nia.
    assert (2 ^ 52 * (2 ^ (t2 - t1 - 1) * 2 * 2 ^ t1) <= RNE t2 V2 * (2 ^ (t2 - t1 - 1) * 2 * 2 ^ t1)).
    { apply Z.mul_le_mono_nonneg_r; [nia | lia]. }
    change (2 ^ 53) with (2 ^ 52 * 2) in *.
    nia.
Qed.

(** ** Right shifts of a mantissa *)

Lemma iter_pos_nat {A} (f : A → A) (p : positive) (x : A) :
  SpecFloat.iter_pos f p x = Nat.iter (Pos.to_nat p) f x.
Proof.
  revert x. induction p as [p IH | p IH |]; intros x; cbn [SpecFloat.iter_pos].
  - rewrite !IH. rewrite Pos2Nat.inj_xI.
    rewrite <- Nat.iter_succ_r, <- Nat.iter_add. f_equal. lia.
  - rewrite !IH. rewrite Pos2Nat.inj_xO.
    rewrite <- Nat.iter_add. f_equal. lia.
  - reflexivity.
Qed.

Lemma shr_1_nonneg (m : Z) (r s : bool) :
  0 <= m →
  shr_1 (Build_shr_record m r s) =
    Build_shr_record (m / 2) (Z.odd m) (r || s).
Proof.
  intros Hm. rewrite <- Z.div2_div.
  destruct m as [| [p | p |] | p]; try reflexivity; lia.
Qed.

Lemma mod_pow2_succ (M n : Z) :
  0 <= n →
  M mod 2 ^ (n + 1) = M mod 2 ^ n + 2 ^ n * (if Z.odd (M / 2 ^ n) then 1 else 0).
Proof.
  intros Hn. pose proof (pow2_pos n Hn).
  rewrite Z.pow_add_r by lia. change (2 ^ 1) with 2.
  rewrite Z.rem_mul_r by lia. rewrite Zmod_odd. reflexivity.
Qed.

Lemma iter_shr_1 (M : Z) (n : nat) :
  0 <= M →
  Nat.iter n shr_1 (Build_shr_record M false false) = shifted M n.
Proof.
  intros HM. induction n as [| n IH]; [reflexivity |].
  simpl Nat.iter. rewrite IH. unfold shifted.
  destruct n as [| n'].
  - rewrite shr_1_nonneg by lia.
    change (Z.of_nat 1) with 1. change (Z.of_nat 0) with 0.
    rewrite Z.pow_0_r, Z.pow_1_r, Z.div_1_r, Z.mod_1_r. reflexivity.
  - assert (Hq : 0 <= M / 2 ^ Z.of_nat (S n'))
      by (apply Z.div_pos; [lia | apply pow2_pos; lia]).
    rewrite shr_1_nonneg by exact Hq. f_equal.
    + rewrite Z.div_div by (try apply pow2_pos; lia).
      f_equal. rewrite (Nat2Z.inj_succ (S n')).
      rewrite Z.pow_succ_r by lia. ring.
    + replace (Z.of_nat (S n')) with (Z.of_nat n' + 1) by lia.
      rewrite (mod_pow2_succ M (Z.of_nat n')) by lia.
      pose proof (pow2_pos (Z.of_nat n') ltac:(lia)).
      pose proof (Z.mod_pos_bound M (2 ^ Z.of_nat n') ltac:(lia)).
      destruct (Z.odd (M / 2 ^ Z.of_nat n')); simpl.
      * symmetry. apply Bool.negb_true_iff, Z.eqb_neq. lia.
      * rewrite Z.mul_0_r, Z.add_0_r. reflexivity.
Qed.

Lemma shifted_m (M : Z) (n : nat) : shr_m (shifted M n) = M / 2 ^ Z.of_nat n.
Proof. destruct n; [simpl; rewrite Z.div_1_r |]; reflexivity. Qed.

Lemma shifted_round (M : Z) (n : nat) :
  0 <= M →
  round_nearest_even (shr_m (shifted M n)) (loc_of_shr_record (shifted M n))
    = RNE (Z.of_nat n) M.
Proof.
  intros HM. destruct n as [| n'].
  - simpl. unfold RNE. simpl. rewrite Z.div_1_r, Z.mod_1_r. reflexivity.
  - unfold shifted. unfold RNE.
    replace (Z.of_nat (S n')) with (Z.of_nat n' + 1) by lia.
    rewrite (mod_pow2_succ M (Z.of_nat n')) by lia.
    pose proof (pow2_pos (Z.of_nat n') ltac:(lia)) as Hp.
    pose proof (Z.mod_pos_bound M (2 ^ Z.of_nat n') ltac:(lia)) as Hr.
    rewrite (Z.pow_add_r 2 (Z.of_nat n') 1) by lia. change (2 ^ 1) with 2.
    destruct (Z.odd (M / 2 ^ Z.of_nat n')) eqn:Hodd;
      destruct (Z.eqb_spec (M mod 2 ^ Z.of_nat n') 0) as [Hz | Hz];
      cbn [loc_of_shr_record round_nearest_even shr_m negb];
      match goal with
      | |- context [?a ?= ?b] => destruct (Z.compare_spec a b)
      end; try reflexivity; try lia.
Qed.

(** ** The value of a rounded result *)

Lemma fexp64 (x : Z) : fexp prec64 emax64 x = Z.max (x - 53) (-1074).
Proof. reflexivity. Qed.

Lemma digits2_pos_spec (p : positive) :
  2 ^ (Zpos (digits2_pos p) - 1) <= Zpos p < 2 ^ Zpos (digits2_pos p).
Proof.
  induction p as [p IH | p IH |]; cbn [digits2_pos].
  - rewrite Pos2Z.inj_succ.
    replace (Z.succ (Zpos (digits2_pos p)) - 1) with (Z.succ (Zpos (digits2_pos p) - 1)) by lia.
    rewrite !Z.pow_succ_r by lia. lia.
  - rewrite Pos2Z.inj_succ.
    replace (Z.succ (Zpos (digits2_pos p)) - 1) with (Z.succ (Zpos (digits2_pos p) - 1)) by lia.
    rewrite !Z.pow_succ_r by lia. lia.
  - simpl. lia.
Qed.

Lemma Zdigits2_log2 (z : Z) : 0 < z → Zdigits2 z = Z.log2 z + 1.
Proof.
  destruct z as [| p | p]; try lia. intros _. cbn [Zdigits2].
  pose proof (digits2_pos_spec p) as Hd.
  rewrite (Z.log2_unique (Zpos p) (Zpos (digits2_pos p) - 1)); [lia | lia |].
  replace (Z.succ (Zpos (digits2_pos p) - 1)) with (Zpos (digits2_pos p)) by lia.
  exact Hd.
Qed.

Lemma Zdigits2_0 : Zdigits2 0 = 0.
Proof. reflexivity. Qed.

Lemma shr_fexp_exact (M e : Z) :
  0 <= M →
  e <= fexp prec64 emax64 (Zdigits2 M + e) →
  shr_fexp prec64 emax64 M e loc_Exact =
    (shifted M (Z.to_nat (fexp prec64 emax64 (Zdigits2 M + e) - e)),
     fexp prec64 emax64 (Zdigits2 M + e)).
Proof.
  intros HM Ht. unfold shr_fexp, shr. cbn [shr_record_of_loc].
  set (t := fexp prec64 emax64 (Zdigits2 M + e)) in *.
  destruct (t - e) as [| p | p] eqn:Hn.
  - simpl. f_equal. lia.
  - rewrite iter_pos_nat, iter_shr_1 by exact HM.
    rewrite Z2Nat.inj_pos. f_equal. lia.
  - lia.
Qed.

Lemma rnd_exp_value (m : positive) (e : Z) :
  - scale64 <= e →
  rnd_exp (Zpos m * 2 ^ (e + scale64)) =
    fexp prec64 emax64 (Zpos (digits2_pos m) + e) + scale64.
Proof.
  intros He. unfold rnd_exp. rewrite fexp64.
  pose proof (digits2_pos_spec m) as Hd.
  pose proof (pow2_pos (e + scale64) ltac:(lia)) as Hp.
  rewrite (Z.log2_unique _ (Zpos (digits2_pos m) - 1 + (e + scale64))).
  - unfold emin64, scale64. clear. generalize (Z.pos (digits2_pos m)). lia.
  - unfold scale64 in *. lia.
  - replace (Z.succ (Zpos (digits2_pos m) - 1 + (e + scale64)))
      with (Zpos (digits2_pos m) - 1 + 1 + (e + scale64)) by lia.
    replace (Zpos (digits2_pos m) - 1 + (e + scale64))
      with ((Zpos (digits2_pos m) - 1) + (e + scale64)) by lia.
    replace (Zpos (digits2_pos m) - 1 + 1) with (Zpos (digits2_pos m)) in * by lia.
    rewrite (Z.pow_add_r 2 (Z.pos (digits2_pos m) - 1)) by lia.
    rewrite (Z.pow_add_r 2 (Z.pos (digits2_pos m))) by lia.
    nia.
Qed.

Lemma Zdigits2_le (z D : Z) : 0 <= D → 0 <= z → z < 2 ^ D → Zdigits2 z <= D.
Proof.
  intros HD Hz Hlt. destruct (Z.eq_dec z 0) as [-> | Hne]; [simpl; lia |].
  rewrite Zdigits2_log2 by lia.
  pose proof (Z.log2_lt_pow2 z D ltac:(lia)). lia.
Qed.

Lemma Zdigits2_eq (z D : Z) :
  0 < D → 2 ^ (D - 1) <= z → z < 2 ^ D → Zdigits2 z = D.
Proof.
  intros HD Hlo Hhi. pose proof (pow2_pos (D - 1) ltac:(lia)).
  rewrite Zdigits2_log2 by lia.
  rewrite (Z.log2_unique z (D - 1)); [lia | lia |].
  replace (Z.succ (D - 1)) with D by lia. lia.
Qed.

(** The mantissa rounded at the exponent of its binade is below [2^53];
    in the normal range it is at least [2^52]. *)
Lemma RNE_mantissa (m : positive) (e : Z) :
  let t := fexp prec64 emax64 (Zpos (digits2_pos m) + e) in
  e <= t →
  0 <= RNE (t - e) (Zpos m) <= 2 ^ 53 ∧
  (-1074 < t → 2 ^ 52 <= RNE (t - e) (Zpos m)).
Proof.
  intros t Ht. pose proof (digits2_pos_spec m) as Hd.
  set (d := Zpos (digits2_pos m)) in *.
  assert (Hdpos : 0 < d) by (unfold d; lia).
  pose proof (pow2_pos (t - e) ltac:(lia)) as Hp.
  pose proof (RNE_bounds (t - e) (Zpos m)) as Hb.
  assert (Hq0 : 0 <= Zpos m / 2 ^ (t - e)) by (apply Z.div_pos; lia).
  assert (Ht' : t = Z.max (d + e - 53) (-1074)) by (unfold t; apply fexp64).
  split; [split; [lia |] |].
  - (* upper bound: m < 2^53 * 2^(t-e) *)
    assert (Hm : Zpos m <= 2 ^ 53 * 2 ^ (t - e)).
    { rewrite <- Z.pow_add_r by lia.
      pose proof (Z.pow_le_mono_r 2 d (53 + (t - e)) ltac:(lia) ltac:(lia)).
      lia. }
    rewrite <- (RNE_exact (t - e) (2 ^ 53)) by lia.
    apply RNE_mono; lia.
  - intros Hn.
    assert (Hte : t - e = d - 53) by lia.
    assert (Hm : 2 ^ 52 * 2 ^ (t - e) <= Zpos m).
    { rewrite <- Z.pow_add_r by lia.
      replace (52 + (t - e)) with (d - 1) by lia. lia. }
    rewrite <- (RNE_exact (t - e) (2 ^ 52)) by lia.
    apply RNE_mono; lia.
Qed.

Lemma cond_Zopp_0 (s : bool) : cond_Zopp s 0 = 0.
Proof. destruct s; reflexivity. Qed.

Lemma binary_round_aux_spec (s : bool) (m : positive) (e : Z) :
  - scale64 <= e →
  e <= fexp prec64 emax64 (Zpos (digits2_pos m) + e) →
  is_nan (binary_round_aux prec64 emax64 s (Zpos m) e loc_Exact) = false ∧
  valid_binary prec64 emax64
    (binary_round_aux prec64 emax64 s (Zpos m) e loc_Exact) = true ∧
  fval (binary_round_aux prec64 emax64 s (Zpos m) e loc_Exact) =
    cond_Zopp s (rndo (Zpos m * 2 ^ (e + scale64))).
Proof.
  intros He Ht.
  pose proof (RNE_mantissa m e Ht) as [[Hm0 Hm53] Hm52].
  assert (Hrnd : rnd (Zpos m * 2 ^ (e + scale64)) =
            RNE (fexp prec64 emax64 (Zpos (digits2_pos m) + e) - e) (Zpos m) *
            2 ^ (fexp prec64 emax64 (Zpos (digits2_pos m) + e) + scale64)).
  { unfold rnd. rewrite rnd_exp_value by exact He.
    replace (fexp prec64 emax64 (Zpos (digits2_pos m) + e) + scale64)
      with (fexp prec64 emax64 (Zpos (digits2_pos m) + e) - e + (e + scale64))
      at 1 by lia.
    rewrite RNE_shift by lia. reflexivity. }
  unfold binary_round_aux.
  rewrite (shr_fexp_exact (Zpos m) e) by (cbn [Zdigits2]; lia).
  cbn [Zdigits2].
  set (t := fexp prec64 emax64 (Zpos (digits2_pos m) + e)) in *.
  assert (Htmin : -1074 <= t) by (unfold t; rewrite fexp64; lia).
  rewrite shifted_round by lia. rewrite Z2Nat.id by lia.
  set (m1 := RNE (t - e) (Zpos m)) in *.
  unfold rndo. rewrite Hrnd.
  assert (Hcase : m1 = 0 \/ (0 < m1 < 2 ^ 53) \/ m1 = 2 ^ 53) by lia.
  destruct Hcase as [Hz | [Hmid | Htop]].
  - (* rounds to zero: only below the normal range *)
    assert (Htm : t = -1074) by lia.
    rewrite Hz.
    rewrite shr_fexp_exact by (cbn [Zdigits2]; rewrite ?fexp64; lia).
    cbn [Zdigits2]. rewrite fexp64.
    replace (Z.max (0 + t - 53) (-1074) - t) with 0 by lia.
    change (Z.to_nat 0) with 0%nat; cbn [shifted shr_m is_nan valid_binary fval].
    rewrite cond_Zopp_0. split; [reflexivity |]. split; [reflexivity |].
    reflexivity.
  - assert (Hdig : Zdigits2 m1 <= 53) by (apply Zdigits2_le; lia).
    assert (Hdig' : -1074 < t -> Zdigits2 m1 = 53).
    { intros Hn. apply Zdigits2_eq; [lia | | lia]. exact (Hm52 Hn). }
    assert (Ht2 : fexp prec64 emax64 (Zdigits2 m1 + t) = t).
    { rewrite fexp64. destruct (Z.eq_dec t (-1074)); [lia |].
      rewrite Hdig' by lia. lia. }
    rewrite shr_fexp_exact by lia. rewrite Ht2, Z.sub_diag.
    change (Z.to_nat 0) with 0%nat; cbn [shifted shr_m].
    destruct m1 as [| p1 | p1] eqn:Hm1; try lia.
    assert (Hcanon : canonical_mantissa prec64 emax64 p1 t = true).
    { unfold canonical_mantissa. apply Z.eqb_eq. exact Ht2. }
    pose proof (pow2_pos (t + scale64) ltac:(unfold scale64; lia)) as Hpt.
    destruct (Z.leb_spec t (emax64 - prec64)) as [Hle | Hgt].
    + cbn [is_nan valid_binary fval]. unfold bounded. rewrite Hcanon.
      split; [reflexivity |]. split.
      * apply andb_true_intro. split; [reflexivity | apply Z.leb_le; exact Hle].
      * f_equal. rewrite Z.min_l; [reflexivity |].
        assert (2 ^ 53 * 2 ^ (t + scale64) <= 2 ^ (emax64 + scale64)).
        { rewrite <- Z.pow_add_r by (unfold scale64; lia).
          apply Z.pow_le_mono_r; unfold emax64, prec64, scale64 in *; lia. }
        nia.
    + cbn [is_nan valid_binary fval].
      split; [reflexivity |]. split; [reflexivity |].
      f_equal. rewrite Z.min_r; [reflexivity |].
      assert (2 ^ (emax64 + scale64) <= 2 ^ 52 * 2 ^ (t + scale64)).
      { rewrite <- Z.pow_add_r by (unfold scale64; lia).
        apply Z.pow_le_mono_r; unfold emax64, prec64, scale64 in *; lia. }
      assert (2 ^ 52 <= Zpos p1) by (apply Hm52; unfold emax64, prec64 in *; lia).
      nia.
  - assert (Hdig : Zdigits2 m1 = 54).
    { rewrite Htop. reflexivity. }
    assert (Ht2 : fexp prec64 emax64 (Zdigits2 m1 + t) = t + 1).
    { rewrite fexp64, Hdig. lia. }
    rewrite shr_fexp_exact by lia. rewrite Ht2.
    replace (t + 1 - t) with 1 by lia.
    rewrite shifted_m. rewrite Htop.
    change (2 ^ 53 / 2 ^ Z.of_nat (Z.to_nat 1)) with (Zpos (4503599627370496)).
    assert (Hcanon : canonical_mantissa prec64 emax64 4503599627370496 (t + 1) = true).
    { unfold canonical_mantissa. apply Z.eqb_eq. rewrite fexp64.
      change (Zpos (digits2_pos 4503599627370496)) with 53. lia. }
    pose proof (pow2_pos (t + scale64) ltac:(unfold scale64; lia)) as Hpt.
    assert (Hval : Zpos 4503599627370496 * 2 ^ (t + 1 + scale64) =
              2 ^ 53 * 2 ^ (t + scale64)).
    { replace (t + 1 + scale64) with (1 + (t + scale64)) by lia.
      rewrite Z.pow_add_r by (unfold scale64; lia).
      change (2 ^ 1) with 2. change (2 ^ 53) with (4503599627370496 * 2). ring. }
    destruct (Z.leb_spec (t + 1) (emax64 - prec64)) as [Hle | Hgt].
    + cbn [is_nan valid_binary fval]. unfold bounded. rewrite Hcanon.
      split; [reflexivity |]. split.
      * apply andb_true_intro. split; [reflexivity | apply Z.leb_le; exact Hle].
      * f_equal. rewrite Hval. rewrite Z.min_l; [reflexivity |].
        rewrite <- Z.pow_add_r by (unfold scale64; lia).
        apply Z.pow_le_mono_r; unfold emax64, prec64, scale64 in *; lia.
    + cbn [is_nan valid_binary fval].
      split; [reflexivity |]. split; [reflexivity |].
      f_equal. rewrite Z.min_r; [reflexivity |].
      rewrite <- Z.pow_add_r by (unfold scale64; lia).
      apply Z.pow_le_mono_r; unfold emax64, prec64, scale64 in *; lia.
Qed.

Lemma iter_xO (m d : positive) :
  Zpos (Pos.iter xO m d) = Zpos m * 2 ^ Zpos d.
Proof.
  induction d as [| d IH] using Pos.peano_ind.
  - simpl. lia.
  - rewrite Pos.iter_succ, Pos2Z.inj_succ, Z.pow_succ_r by lia.
    rewrite Pos2Z.inj_xO, IH. ring.
Qed.

Lemma digits2_pos_shift (m d : positive) :
  Zpos (digits2_pos (Pos.iter xO m d)) = Zpos (digits2_pos m) + Zpos d.
Proof.
  induction d as [| d IH] using Pos.peano_ind.
  - simpl. lia.
  - rewrite Pos.iter_succ. cbn [digits2_pos].
    rewrite Pos2Z.inj_succ, IH. lia.
Qed.

Lemma binary_round_spec (s : bool) (m : positive) (e : Z) :
  - scale64 <= e →
  is_nan (binary_round prec64 emax64 s m e) = false ∧
  valid_binary prec64 emax64 (binary_round prec64 emax64 s m e) = true ∧
  fval (binary_round prec64 emax64 s m e) =
    cond_Zopp s (rndo (Zpos m * 2 ^ (e + scale64))).
Proof.
  intros He. unfold binary_round, shl_align.
  remember (fexp prec64 emax64 (Zpos (digits2_pos m) + e)) as t eqn:Ht.
  assert (Htmin : -1074 <= t) by (rewrite Ht, fexp64; lia).
  destruct (t - e) as [| d | d] eqn:Hd.
  - apply binary_round_aux_spec; [exact He | rewrite <- Ht; lia].
  - apply binary_round_aux_spec; [exact He | rewrite <- Ht; lia].
  - assert (Hval : Zpos (Pos.iter xO m d) * 2 ^ (t + scale64) =
              Zpos m * 2 ^ (e + scale64)).
    { rewrite iter_xO. replace (e + scale64) with (Zpos d + (t + scale64)) by lia.
      rewrite (Z.pow_add_r 2 (Zpos d) (t + scale64)); [ring | lia | unfold scale64; lia]. }
    rewrite <- Hval.
    apply binary_round_aux_spec; [unfold scale64; lia |].
    rewrite digits2_pos_shift.
    replace (Zpos (digits2_pos m) + Zpos d + t) with (Zpos (digits2_pos m) + e) by lia.
    rewrite <- Ht. lia.
Qed.

Lemma rnd_0 : rnd 0 = 0.
Proof. reflexivity. Qed.

Lemma rndo_0 : rndo 0 = 0.
Proof. reflexivity. Qed.

Lemma rnd_nonneg (V : Z) : 0 <= V → 0 <= rnd V.
Proof. intros. rewrite <- rnd_0. apply rnd_mono; lia. Qed.

Lemma rndo_nonneg (V : Z) : 0 <= V → 0 <= rndo V.
Proof.
  intros. unfold rndo. pose proof (rnd_nonneg V H).
  pose proof (pow2_pos (emax64 + scale64) ltac:(unfold emax64, scale64; lia)).
  lia.
Qed.

Lemma rndo_mono (V1 V2 : Z) : 0 <= V1 → V1 <= V2 → rndo V1 <= rndo V2.
Proof.
  intros. unfold rndo. pose proof (rnd_mono V1 V2 H H0). lia.
Qed.

Lemma srndo_mono (V1 V2 : Z) : V1 <= V2 → srndo V1 <= srndo V2.
Proof.
  intros H. unfold srndo.
  destruct (Z.ltb_spec V1 0), (Z.ltb_spec V2 0).
  - pose proof (rndo_mono (- V2) (- V1) ltac:(lia) ltac:(lia)). lia.
  - pose proof (rndo_nonneg (- V1) ltac:(lia)).
    pose proof (rndo_nonneg V2 ltac:(lia)). lia.
  - lia.
  - apply rndo_mono; lia.
Qed.

Lemma srndo_nonneg (V : Z) : 0 <= V → srndo V = rndo V.
Proof. intros. unfold srndo. destruct (Z.ltb_spec V 0); [lia | reflexivity]. Qed.

Lemma binary_normalize_spec (S e : Z) (szero : bool) :
  - scale64 <= e →
  is_nan (binary_normalize prec64 emax64 S e szero) = false ∧
  valid_binary prec64 emax64 (binary_normalize prec64 emax64 S e szero) = true ∧
  fval (binary_normalize prec64 emax64 S e szero) =
    srndo (S * 2 ^ (e + scale64)).
Proof.
  intros He. pose proof (pow2_pos (e + scale64) ltac:(lia)) as Hp.
  destruct S as [| p | p]; cbn [binary_normalize].
  - repeat split; reflexivity.
  - destruct (binary_round_spec false p e He) as (Hn & Hv & Hf).
    rewrite Hn, Hv, Hf. rewrite srndo_nonneg by lia. repeat split.
  - destruct (binary_round_spec true p e He) as (Hn & Hv & Hf).
    rewrite Hn, Hv, Hf. repeat split. unfold srndo.
    destruct (Z.ltb_spec (Zneg p * 2 ^ (e + scale64)) 0); [| lia].
    cbn [cond_Zopp]. f_equal. f_equal. lia.
Qed.

(** ** Comparison by value *)

Lemma bounded_facts (m : positive) (e : Z) :
  bounded prec64 emax64 m e = true →
  -1074 <= e <= 971 ∧ Zpos m < 2 ^ 53 ∧ (-1074 < e → 2 ^ 52 <= Zpos m) ∧
  fexp prec64 emax64 (Zpos (digits2_pos m) + e) = e.
Proof.
  unfold bounded, canonical_mantissa. intros Hb.
  apply andb_prop in Hb as [Hc He].
  apply Z.eqb_eq in Hc. apply Z.leb_le in He.
  pose proof Hc as Hc'. rewrite fexp64 in Hc'.
  pose proof (digits2_pos_spec m) as Hd.
  set (d := Zpos (digits2_pos m)) in *.
  assert (0 < d) by (unfold d; lia).
  unfold emax64, prec64 in He.
  split; [lia |]. split; [| split; [| exact Hc]].
  - pose proof (Z.pow_le_mono_r 2 d 53 ltac:(lia) ltac:(lia)). lia.
  - intros Hn. assert (d = 53) by lia.
    replace (d - 1) with 52 in Hd by lia. lia.
Qed.

Lemma rndo_id (m : positive) (e : Z) :
  bounded prec64 emax64 m e = true →
  rndo (Zpos m * 2 ^ (e + scale64)) = Zpos m * 2 ^ (e + scale64).
Proof.
  intros Hb. destruct (bounded_facts m e Hb) as (He & Hm & _ & Hc).
  unfold rndo, rnd. rewrite rnd_exp_value by (unfold scale64; lia).
  rewrite Hc. rewrite RNE_exact by (unfold scale64; lia).
  apply Z.min_l.
  pose proof (pow2_pos (e + scale64) ltac:(unfold scale64; lia)).
  assert (2 ^ 53 * 2 ^ (e + scale64) <= 2 ^ (emax64 + scale64)).
  { rewrite <- Z.pow_add_r by (unfold scale64; lia).
    apply Z.pow_le_mono_r; unfold emax64, scale64; lia. }
  nia.
Qed.

Lemma finite_lt_inf (m : positive) (e : Z) :
  bounded prec64 emax64 m e = true →
  0 < Zpos m * 2 ^ (e + scale64) < 2 ^ (emax64 + scale64).
Proof.
  intros Hb. destruct (bounded_facts m e Hb) as (He & Hm & _ & _).
  pose proof (pow2_pos (e + scale64) ltac:(unfold scale64; lia)).
  assert (2 ^ 53 * 2 ^ (e + scale64) <= 2 ^ (emax64 + scale64)).
  { rewrite <- Z.pow_add_r by (unfold scale64; lia).
    apply Z.pow_le_mono_r; unfold emax64, scale64; lia. }
  nia.
Qed.

Lemma finite_lt_finite (m1 m2 : positive) (e1 e2 : Z) :
  bounded prec64 emax64 m1 e1 = true →
  bounded prec64 emax64 m2 e2 = true →
  e1 < e2 →
  Zpos m1 * 2 ^ (e1 + scale64) < Zpos m2 * 2 ^ (e2 + scale64).
Proof.
  intros H1 H2 Hlt.
  destruct (bounded_facts m1 e1 H1) as (He1 & Hm1 & _ & _).
  destruct (bounded_facts m2 e2 H2) as (He2 & _ & Hm2 & _).
  specialize (Hm2 ltac:(lia)).
  pose proof (pow2_pos (e1 + scale64) ltac:(unfold scale64; lia)) as Hp1.
  pose proof (pow2_pos (e2 - e1 - 1) ltac:(lia)) as Hp.
  assert (Hsplit : 2 ^ (e2 + scale64) = 2 ^ (e2 - e1 - 1) * 2 * 2 ^ (e1 + scale64)).
  { replace (e2 + scale64) with ((e2 - e1 - 1) + 1 + (e1 + scale64)) by lia.
    rewrite !Z.pow_add_r by (unfold scale64; lia). reflexivity. }
  rewrite Hsplit.
  change (2 ^ 53) with (2 ^ 52 * 2) in Hm1.
  assert (Zpos m1 * 2 ^ (e1 + scale64) < 2 ^ 52 * 2 * 2 ^ (e1 + scale64)) by nia.
  assert (2 ^ 52 * 2 * 2 ^ (e1 + scale64) <=
          Zpos m2 * (2 ^ (e2 - e1 - 1) * 2 * 2 ^ (e1 + scale64))) by nia.
  lia.
Qed.

Lemma finite_compare (m1 m2 : positive) (e1 e2 : Z) :
  bounded prec64 emax64 m1 e1 = true →
  bounded prec64 emax64 m2 e2 = true →
  (Zpos m1 * 2 ^ (e1 + scale64) ?= Zpos m2 * 2 ^ (e2 + scale64)) =
    match e1 ?= e2 with
    | Lt => Lt
    | Gt => Gt
    | Eq => Pos.compare_cont Eq m1 m2
    end.
Proof.
  intros H1 H2. destruct (Z.compare_spec e1 e2) as [-> | Hlt | Hgt].
  - destruct (bounded_facts m2 e2 H2) as (He2 & _).
    pose proof (pow2_pos (e2 + scale64) ltac:(unfold scale64; lia)).
    change (Pos.compare_cont Eq m1 m2) with (Pos.compare m1 m2).
    rewrite Pos2Z.inj_compare.
    destruct (Z.compare_spec (Zpos m1) (Zpos m2));
      [apply Z.compare_eq_iff | apply Z.compare_lt_iff | apply Z.compare_gt_iff]; nia.
  - apply Z.compare_lt_iff. apply finite_lt_finite; assumption.
  - apply Z.compare_gt_iff. apply finite_lt_finite; assumption.
Qed.

Ltac solve_cmp :=
  first
    [ reflexivity
    | f_equal; symmetry;
      first [apply Z.compare_eq_iff; lia | apply Z.compare_lt_iff; lia
            | apply Z.compare_gt_iff; lia] ].

Lemma SFcompare_fval (x y : float) :
  is_nan x = false → is_nan y = false →
  valid_binary prec64 emax64 x = true →
  valid_binary prec64 emax64 y = true →
  SFcompare x y = Some (fval x ?= fval y).
Proof.
  pose proof (pow2_pos (emax64 + scale64) ltac:(unfold emax64, scale64; lia)) as Hinf.
  destruct x as [sx | sx | | sx mx ex], y as [sy | sy | | sy my ey];
    cbn [is_nan valid_binary]; try discriminate; intros _ _ Hx Hy;
    try (pose proof (finite_lt_inf _ _ Hx) as Hfx);
    try (pose proof (finite_lt_inf _ _ Hy) as Hfy);
    cbn [SFcompare fval].
  - reflexivity.
  - destruct sy; cbn [cond_Zopp]; solve_cmp.
  - destruct sy; cbn [cond_Zopp]; solve_cmp.
  - destruct sx; cbn [cond_Zopp]; solve_cmp.
  - destruct sx, sy; cbn [cond_Zopp]; solve_cmp.
  - destruct sx, sy; cbn [cond_Zopp]; solve_cmp.
  - destruct sx; cbn [cond_Zopp]; solve_cmp.
  - destruct sx, sy; cbn [cond_Zopp]; solve_cmp.
  - destruct sx, sy; cbn [cond_Zopp]; f_equal.
    + rewrite Z.compare_opp. rewrite (finite_compare _ _ _ _ Hy Hx).
      rewrite (Z.compare_antisym ey ex).
      destruct (ey ?= ex); cbn [CompOpp]; try reflexivity.
      change (Pos.compare_cont Eq my mx) with (Pos.compare my mx).
      change (Pos.compare_cont Eq mx my) with (Pos.compare mx my).
      rewrite (Pos.compare_antisym mx my). reflexivity.
    + symmetry. apply Z.compare_lt_iff. lia.
    + symmetry. apply Z.compare_gt_iff. lia.
    + rewrite (finite_compare _ _ _ _ Hx Hy). reflexivity.
Qed.

(** ** Addition, subtraction and multiplication *)

Lemma cond_Zopp_mul (s : bool) (a b : Z) :
  cond_Zopp s a * b = cond_Zopp s (a * b).
Proof. destruct s; cbn [cond_Zopp]; lia. Qed.

Lemma cond_Zopp_negb (s : bool) (a : Z) :
  cond_Zopp (negb s) a = - cond_Zopp s a.
Proof. destruct s; cbn [cond_Zopp negb]; lia. Qed.

Lemma srndo_opp (V : Z) : srndo (- V) = - srndo V.
Proof.
  unfold srndo. destruct (Z.ltb_spec (- V) 0), (Z.ltb_spec V 0); try lia.
  - rewrite Z.opp_involutive. reflexivity.
  - assert (V = 0) by lia. subst V. reflexivity.
Qed.

Lemma srndo_id (x : float) :
  is_finite x = true → is_double x = true → srndo (fval x) = fval x.
Proof.
  destruct x as [s | s | | s m e]; cbn [is_finite]; try discriminate.
  - reflexivity.
  - intros _ Hv. unfold is_double in Hv. cbn [valid_binary] in Hv.
    pose proof (finite_lt_inf m e Hv) as Hpos.
    cbn [fval]. destruct s; cbn [cond_Zopp].
    + rewrite srndo_opp. rewrite srndo_nonneg by lia.
      rewrite (rndo_id m e Hv). reflexivity.
    + rewrite srndo_nonneg by lia. apply (rndo_id m e Hv).
Qed.

Lemma shl_align_value (m : positive) (e ez : Z) :
  ez <= e →
  Zpos (fst (shl_align m e ez)) = Zpos m * 2 ^ (e - ez).
Proof.
  intros Hle. unfold shl_align.
  destruct (ez - e) as [| d | d] eqn:Hd; cbn [fst].
  - replace (e - ez) with 0 by lia. simpl. lia.
  - lia.
  - rewrite iter_xO. f_equal. f_equal. lia.
Qed.

Lemma aligned_value (s : bool) (m : positive) (e ez : Z) :
  - scale64 <= ez → ez <= e →
  cond_Zopp s (Zpos (fst (shl_align m e ez))) * 2 ^ (ez + scale64) =
    cond_Zopp s (Zpos m * 2 ^ (e + scale64)).
Proof.
  intros Hz Hle. rewrite shl_align_value by exact Hle.
  rewrite cond_Zopp_mul. f_equal.
  replace (e + scale64) with ((e - ez) + (ez + scale64)) by lia.
  rewrite (Z.pow_add_r 2 (e - ez) (ez + scale64)) by lia. ring.
Qed.

Lemma fadd_spec (x y : float) :
  is_finite x = true → is_finite y = true →
  is_double x = true → is_double y = true →
  is_nan (fadd x y) = false ∧
  is_double (fadd x y) = true ∧
  fval (fadd x y) = srndo (fval x + fval y).
Proof.
  intros Hfx Hfy Hvx Hvy.
  pose proof (srndo_id x Hfx Hvx) as Hidx.
  pose proof (srndo_id y Hfy Hvy) as Hidy.
  destruct x as [sx | sx | | sx mx ex], y as [sy | sy | | sy my ey];
    cbn [is_finite] in *; try discriminate.
  - destruct sx, sy; repeat split.
  - cbn [fadd SFadd]. unfold fadd. cbn [SFadd].
    repeat split; [exact Hvy |]. rewrite Z.add_0_l. symmetry. exact Hidy.
  - unfold fadd. cbn [SFadd].
    repeat split; [exact Hvx |]. cbn [fval] in *. rewrite Z.add_0_r.
    symmetry. exact Hidx.
  - unfold fadd. cbn [SFadd].
    unfold is_double in *. cbn [valid_binary] in Hvx, Hvy.
    destruct (bounded_facts mx ex Hvx) as (Hex & _).
    destruct (bounded_facts my ey Hvy) as (Hey & _).
    assert (Hz : - scale64 <= Z.min ex ey) by (unfold scale64; lia).
    destruct (binary_normalize_spec
                (cond_Zopp sx (Zpos (fst (shl_align mx ex (Z.min ex ey)))) +
                 cond_Zopp sy (Zpos (fst (shl_align my ey (Z.min ex ey)))))
                (Z.min ex ey) false Hz) as (Hn & Hv & Hf).
    split; [exact Hn |]. split; [exact Hv |]. rewrite Hf. f_equal.
    rewrite Z.mul_add_distr_r.
    rewrite !aligned_value by lia. reflexivity.
Qed.

Lemma fsub_spec (x y : float) :
  is_finite x = true → is_finite y = true →
  is_double x = true → is_double y = true →
  is_nan (fsub x y) = false ∧
  is_double (fsub x y) = true ∧
  fval (fsub x y) = srndo (fval x - fval y).
Proof.
  intros Hfx Hfy Hvx Hvy.
  pose proof (srndo_id x Hfx Hvx) as Hidx.
  pose proof (srndo_id y Hfy Hvy) as Hidy.
  destruct x as [sx | sx | | sx mx ex], y as [sy | sy | | sy my ey];
    cbn [is_finite] in *; try discriminate.
  - destruct sx, sy; repeat split.
  - unfold fsub. cbn [SFsub].
    repeat split; [exact Hvy |]. cbn [fval] in *.
    rewrite Z.sub_0_l, srndo_opp, Hidy. apply cond_Zopp_negb.
  - unfold fsub. cbn [SFsub].
    repeat split; [exact Hvx |]. cbn [fval] in *. rewrite Z.sub_0_r.
    symmetry. exact Hidx.
  - unfold fsub. cbn [SFsub].
    unfold is_double in *. cbn [valid_binary] in Hvx, Hvy.
    destruct (bounded_facts mx ex Hvx) as (Hex & _).
    destruct (bounded_facts my ey Hvy) as (Hey & _).
    assert (Hz : - scale64 <= Z.min ex ey) by (unfold scale64; lia).
    destruct (binary_normalize_spec
                (cond_Zopp sx (Zpos (fst (shl_align mx ex (Z.min ex ey)))) -
                 cond_Zopp sy (Zpos (fst (shl_align my ey (Z.min ex ey)))))
                (Z.min ex ey) false Hz) as (Hn & Hv & Hf).
    split; [exact Hn |]. split; [exact Hv |]. rewrite Hf. f_equal.
    rewrite Z.mul_sub_distr_r.
    rewrite !aligned_value by lia. reflexivity.
Qed.

Lemma fmul_spec (x y : float) :
  is_nonneg x = true → is_nonneg y = true →
  is_double x = true → is_double y = true →
  is_nan (fmul x y) = false ∧
  is_double (fmul x y) = true ∧
  fval (fmul x y) = rndo (fval x * fval y / 2 ^ scale64).
Proof.
  intros Hx Hy Hvx Hvy.
  destruct x as [sx | sx | | [] mx ex], y as [sy | sy | | [] my ey];
    cbn [is_nonneg] in *; try discriminate.
  - repeat split.
  - repeat split.
  - unfold fmul. cbn [SFmul fval]. repeat split.
    rewrite Z.mul_0_r. reflexivity.
  - unfold fmul. cbn [SFmul xorb].
    unfold is_double in *. cbn [valid_binary] in Hvx, Hvy.
    destruct (bounded_facts mx ex Hvx) as (Hex & Hmx & Hnx & _).
    destruct (bounded_facts my ey Hvy) as (Hey & Hmy & Hny & _).
    assert (Hval : fval (S754_finite false mx ex) * fval (S754_finite false my ey)
                   / 2 ^ scale64 =
              Zpos (mx * my) * 2 ^ (ex + ey + scale64)).
    { cbn [fval cond_Zopp].
      replace (Zpos mx * 2 ^ (ex + scale64) * (Zpos my * 2 ^ (ey + scale64)))
        with (Zpos (mx * my) * 2 ^ (ex + ey + scale64) * 2 ^ scale64).
      - apply Z.div_mul. pose proof (pow2_pos scale64 ltac:(unfold scale64; lia)). lia.
      - rewrite Pos2Z.inj_mul.
        rewrite <- Z.mul_assoc.
        rewrite <- (Z.pow_add_r 2 (ex + ey + scale64) scale64)
          by (unfold scale64; lia).
        replace (ex + ey + scale64 + scale64)
          with ((ex + scale64) + (ey + scale64)) by lia.
        rewrite (Z.pow_add_r 2 (ex + scale64) (ey + scale64))
          by (unfold scale64; lia).
        ring. }
    rewrite Hval.
    assert (Hpre : ex + ey <=
              fexp prec64 emax64 (Zpos (digits2_pos (mx * my)) + (ex + ey))).
    { rewrite fexp64.
      destruct (Z.le_gt_cases (ex + ey) (-1074)) as [Hle | Hgt]; [lia |].
      assert (Hbig : 2 ^ 52 <= Zpos (mx * my)).
      { rewrite Pos2Z.inj_mul.
        destruct (Z.eq_dec ex (-1074)) as [Heq | Hne].
        - specialize (Hny ltac:(lia)). nia.
        - specialize (Hnx ltac:(lia)). nia. }
      pose proof (digits2_pos_spec (mx * my)) as Hd.
      assert (53 <= Zpos (digits2_pos (mx * my))).
      { destruct (Z.le_gt_cases 53 (Zpos (digits2_pos (mx * my)))) as [? | Hlt];
          [assumption |].
        pose proof (Z.pow_le_mono_r 2 (Zpos (digits2_pos (mx * my))) 52
                      ltac:(lia) ltac:(lia)). lia. }
      lia. }
    destruct (binary_round_aux_spec false (mx * my) (ex + ey)
                ltac:(unfold scale64; lia) Hpre) as (Hn & Hv & Hf).
    split; [exact Hn |]. split; [exact Hv |]. exact Hf.
Qed.

(** ** Comparisons of doubles and their values *)

Lemma fle_fval (x y : float) :
  is_nan x = false → is_nan y = false →
  is_double x = true → is_double y = true →
  fle x y = true ↔ fval x <= fval y.
Proof.
  intros Hnx Hny Hvx Hvy. unfold fle, SFleb.
  rewrite (SFcompare_fval x y Hnx Hny Hvx Hvy).
  destruct (Z.compare_spec (fval x) (fval y)); split; intros; try lia;
    try reflexivity; discriminate.
Qed.


Lemma is_finite_not_nan (x : float) : is_finite x = true → is_nan x = false.
Proof. destruct x; cbn; congruence. Qed.

Lemma is_nonneg_finite (x : float) : is_nonneg x = true → is_finite x = true.
Proof. destruct x as [| | | [] ? ?]; cbn; congruence. Qed.

Lemma fle_0_nonneg (x : float) :
  is_finite x = true → fle f_0 x = true → is_nonneg x = true.
Proof.
  destruct x as [s | s | | [] m e]; cbn; try congruence.
Qed.

Lemma fval_nonneg (x : float) : is_nonneg x = true → 0 <= fval x.
Proof.
  destruct x as [s | s | | [] m e]; cbn [is_nonneg fval cond_Zopp];
    try discriminate; intros _; lia.
Qed.

Lemma fval_finite_lt (x : float) :
  is_finite x = true → is_double x = true →
  - 2 ^ (emax64 + scale64) < fval x < 2 ^ (emax64 + scale64).
Proof.
  pose proof (pow2_pos (emax64 + scale64) ltac:(unfold emax64, scale64; lia)).
  destruct x as [s | s | | s m e]; cbn [is_finite]; try discriminate.
  - cbn [fval]. lia.
  - intros _ Hv. unfold is_double in Hv. cbn [valid_binary] in Hv.
    pose proof (finite_lt_inf m e Hv). cbn [fval].
    destruct s; cbn [cond_Zopp]; lia.
Qed.

Lemma fval_lt_finite (x : float) :
  is_nan x = false →
  - 2 ^ (emax64 + scale64) < fval x < 2 ^ (emax64 + scale64) →
  is_finite x = true.
Proof.
  destruct x as [s | s | | s m e]; cbn [is_nan is_finite]; try congruence.
  intros _. cbn [fval]. destruct s; cbn [cond_Zopp]; lia.
Qed.

Lemma fval_f_1 : fval f_1 = 2 ^ scale64.
Proof. reflexivity. Qed.

(** ** The positive count [count * mean] *)

Lemma pos_count_spec (count mean : float) :
  is_finite count = true → is_finite mean = true →
  is_double count = true → is_double mean = true →
  fle f_0 count = true → fle f_0 mean = true → fle mean f_1 = true →
  is_finite (fmul count mean) = true ∧
  is_double (fmul count mean) = true ∧
  fval (fmul count mean) = rndo (fval count * fval mean / 2 ^ scale64) ∧
  0 <= fval (fmul count mean) <= fval count.
Proof.
  intros Hfc Hfm Hvc Hvm Hc0 Hm0 Hm1.
  pose proof (fle_0_nonneg _ Hfc Hc0) as Hnc.
  pose proof (fle_0_nonneg _ Hfm Hm0) as Hnm.
  destruct (fmul_spec count mean Hnc Hnm Hvc Hvm) as (Hn & Hv & Hval).
  pose proof (fval_nonneg _ Hnc) as Hc.
  pose proof (fval_nonneg _ Hnm) as Hm.
  assert (fval mean <= 2 ^ scale64) as Hle.
  { rewrite <- fval_f_1.
    apply (fle_fval mean f_1); auto using is_finite_not_nan. }
  pose proof (pow2_pos scale64 ltac:(unfold scale64; lia)) as Hp.
  assert (0 <= fval count * fval mean / 2 ^ scale64 <= fval count) as Hq.
  { split.
    - apply Z.div_pos; nia.
    - apply Z.div_le_upper_bound; nia. }
  assert (0 <= fval (fmul count mean) <= fval count) as Hb.
  { rewrite Hval. split.
    - apply rndo_nonneg. lia.
    - pose proof (rndo_mono _ _ (proj1 Hq) (proj2 Hq)) as Hmono.
      rewrite <- (srndo_nonneg (fval count)) in Hmono by lia.
      rewrite (srndo_id count Hfc Hvc) in Hmono. exact Hmono. }
  pose proof (fval_finite_lt count Hfc Hvc).
  repeat split; try assumption; try lia.
  apply fval_lt_finite; [assumption | lia].
Qed.

Lemma pos_count_mono (count s1 s2 : float) :
  is_finite count = true → is_finite s1 = true → is_finite s2 = true →
  is_double count = true → is_double s1 = true → is_double s2 = true →
  fle f_0 count = true → fle f_0 s1 = true → fle s1 s2 = true →
  fle s2 f_1 = true →
  fval (fmul count s1) <= fval (fmul count s2).
Proof.
  intros Hfc Hf1 Hf2 Hvc Hv1 Hv2 Hc0 H10 H12 H21.
  assert (fval s1 <= fval s2) as Hle
    by (apply (fle_fval s1 s2); auto using is_finite_not_nan).
  assert (fle f_0 s2 = true) as H20.
  { apply (fle_fval f_0 s2); auto using is_finite_not_nan.
    apply (fle_fval f_0 s1) in H10; auto using is_finite_not_nan. lia. }
  assert (fle s1 f_1 = true) as H11.
  { apply (fle_fval s1 f_1); auto using is_finite_not_nan.
    apply (fle_fval s2 f_1) in H21; auto using is_finite_not_nan. lia. }
  destruct (pos_count_spec count s1) as (_ & _ & E1 & _); auto.
  destruct (pos_count_spec count s2) as (_ & _ & E2 & _); auto.
  rewrite E1, E2.
  pose proof (fval_nonneg _ (fle_0_nonneg _ Hfc Hc0)) as Hc.
  pose proof (fval_nonneg _ (fle_0_nonneg _ Hf1 H10)) as Hs1.
  pose proof (pow2_pos scale64 ltac:(unfold scale64; lia)) as Hp.
  apply rndo_mono.
  - apply Z.div_pos; nia.
  - apply Z.div_le_mono; nia.
Qed.

Lemma fsub_infinity (y p : float) :
  is_nan y = false → is_finite y = false → is_finite p = true →
  fsub y p = y.
Proof.
  destruct y as [s | s | | s m e]; cbn [is_nan is_finite]; try discriminate.
  intros _ _. destruct p; cbn [is_finite]; try discriminate; reflexivity.
Qed.

(** ** Beta parameters *)




(** C8 (as amended): for a fixed finite count that is not negative and
    fixed finite priors, a greater strength within [0, 1] gives an [a]
    that is not smaller and a [b] that is not greater. *)
Theorem tv_to_beta_monotone (count s1 s2 prior_a prior_b : float) :
  is_finite count = true → is_finite s1 = true → is_finite s2 = true →
  is_finite prior_a = true → is_finite prior_b = true →
  is_double count = true → is_double s1 = true → is_double s2 = true →
  is_double prior_a = true → is_double prior_b = true →
  fle f_0 count = true → fle f_0 s1 = true → fle s1 s2 = true →
  fle s2 f_1 = true →
  fle (beta_a (tv_to_beta (mkTruthValue s1 count) prior_a prior_b))
      (beta_a (tv_to_beta (mkTruthValue s2 count) prior_a prior_b)) = true ∧
  fle (beta_b (tv_to_beta (mkTruthValue s2 count) prior_a prior_b))
      (beta_b (tv_to_beta (mkTruthValue s1 count) prior_a prior_b)) = true.
Proof.
  intros Hfc Hf1 Hf2 Hfa Hfb Hvc Hv1 Hv2 Hva Hvb Hc0 H10 H12 H21.
  pose proof (pos_count_mono count s1 s2 Hfc Hf1 Hf2 Hvc Hv1 Hv2 Hc0 H10 H12 H21)
    as Hmono.
  assert (fle f_0 s2 = true) as H20.
  { apply (fle_fval f_0 s2); auto using is_finite_not_nan.
    apply (fle_fval f_0 s1) in H10; auto using is_finite_not_nan.
    apply (fle_fval s1 s2) in H12; auto using is_finite_not_nan. lia. }
  assert (fle s1 f_1 = true) as H11.
  { apply (fle_fval s1 f_1); auto using is_finite_not_nan.
    apply (fle_fval s2 f_1) in H21; auto using is_finite_not_nan.
    apply (fle_fval s1 s2) in H12; auto using is_finite_not_nan. lia. }
  destruct (pos_count_spec count s1) as (Hfp1 & Hvp1 & _ & _); auto.
  destruct (pos_count_spec count s2) as (Hfp2 & Hvp2 & _ & _); auto.
  cbn [tv_to_beta beta_a beta_b tv_mean tv_count].
  split.
  - destruct (fadd_spec prior_a (fmul count s1)) as (Hn1 & Hd1 & E1); auto.
    destruct (fadd_spec prior_a (fmul count s2)) as (Hn2 & Hd2 & E2); auto.
    apply fle_fval; auto. rewrite E1, E2. apply srndo_mono. lia.
  - destruct (fadd_spec prior_b count) as (Hny & Hdy & _); auto.
    destruct (is_finite (fadd prior_b count)) eqn:Hfy.
    + destruct (fsub_spec (fadd prior_b count) (fmul count s1))
        as (Hn1 & Hd1 & E1); auto.
      destruct (fsub_spec (fadd prior_b count) (fmul count s2))
        as (Hn2 & Hd2 & E2); auto.
      apply fle_fval; auto. rewrite E1, E2. apply srndo_mono. lia.
    + rewrite !fsub_infinity by auto. apply fle_refl; auto.
Qed.

Lemma tv_to_beta_monotone_witness :
  fle (beta_a (tv_to_beta (mkTruthValue f_0_1 (float_of_Z 10)) f_1 f_1))
      (beta_a (tv_to_beta (mkTruthValue f_0_9 (float_of_Z 10)) f_1 f_1)) =
    true ∧
  fle (beta_b (tv_to_beta (mkTruthValue f_0_9 (float_of_Z 10)) f_1 f_1))
      (beta_b (tv_to_beta (mkTruthValue f_0_1 (float_of_Z 10)) f_1 f_1)) =
    true.
Proof.
  apply (tv_to_beta_monotone (float_of_Z 10) f_0_1 f_0_9 f_1 f_1);
    vm_compute; reflexivity.
Defined.

(** C8, counterexample: with the count 0 the strengths 0.0 < 1.0 give
    the same parameters; and with the count 1 so do the strength 0.5 and
    the next double above it, the difference being lost in rounding.
    Neither [a] grows strictly nor [b] falls strictly. *)
Lemma tv_to_beta_not_strict :
  (flt f_0 f_1 = true ∧
   flt (beta_a (tv_to_beta (mkTruthValue f_0 f_0) f_1 f_1))
       (beta_a (tv_to_beta (mkTruthValue f_1 f_0) f_1 f_1)) = false ∧
   flt (beta_b (tv_to_beta (mkTruthValue f_1 f_0) f_1 f_1))
       (beta_b (tv_to_beta (mkTruthValue f_0 f_0) f_1 f_1)) = false) ∧
  (flt f_0 f_1 = true ∧
   fle f_0 (float_literal 1 2) = true ∧
   flt (float_literal 1 2) (SFsucc prec64 emax64 (float_literal 1 2)) = true ∧
   fle (SFsucc prec64 emax64 (float_literal 1 2)) f_1 = true ∧
   is_double (SFsucc prec64 emax64 (float_literal 1 2)) = true ∧
   flt (beta_a (tv_to_beta (mkTruthValue (float_literal 1 2) f_1) f_1 f_1))
       (beta_a (tv_to_beta
          (mkTruthValue (SFsucc prec64 emax64 (float_literal 1 2)) f_1)
          f_1 f_1)) = false ∧
   flt (beta_b (tv_to_beta
          (mkTruthValue (SFsucc prec64 emax64 (float_literal 1 2)) f_1)
          f_1 f_1))
       (beta_b (tv_to_beta (mkTruthValue (float_literal 1 2) f_1) f_1 f_1)) =
     false).
Proof. repeat split; vm_compute; reflexivity. Qed.

(** ** Thompson sampling *)

(** [max] returns an element of the list; when no key is NaN it is the
    first element whose key none exceeds. *)
Lemma fold_max_step_first_argmax {A} (key : A → float) (xs : list A) (x : A) :
  ∃ i,
    (x :: xs) !! i = Some (fold_left (max_step key) xs x) ∧
    (Forall (λ y, is_nan (key y) = false) (x :: xs) →
     first_argmax key (x :: xs) i (fold_left (max_step key) xs x)).
Proof.
  induction xs as [| y xs IH] using rev_ind.
  - exists 0%nat. split; [reflexivity |]. intros Hnan.
    split; [reflexivity |]. split.
    + intros [| j] z Hz; simpl in Hz; [| done].
      injection Hz as <-. apply fle_refl. by inversion Hnan.
    + intros j z Hj. lia.
  - destruct IH as (i & Hi & IH).
    rewrite fold_left_app. simpl.
    set (r := fold_left (max_step key) xs x) in *.
    assert (Hlen : (i < length (x :: xs))%nat)
      by (eapply lookup_lt_Some; exact Hi).
    change (x :: xs ++ [y]) with ((x :: xs) ++ [y]).
    unfold max_step. destruct (flt (key r) (key y)) eqn:Hry.
    + exists (length (x :: xs)). split.
      { rewrite lookup_app_r by lia. rewrite Nat.sub_diag. reflexivity. }
      intros Hnan. apply Forall_app in Hnan as [Hnan Hy].
      destruct (IH Hnan) as (_ & Hle & Hlt).
      split; [| split].
      * rewrite lookup_app_r by lia. rewrite Nat.sub_diag. reflexivity.
      * intros j z Hz.
        apply lookup_app_Some in Hz as [Hz | [_ Hz]].
        -- apply flt_fle.
           eapply fle_flt_trans; [eapply Hle; exact Hz | exact Hry].
        -- apply list_lookup_singleton_Some in Hz as [_ <-].
           apply fle_refl. by inversion Hy.
      * intros j z Hj Hz.
        rewrite lookup_app_l in Hz by exact Hj.
        eapply fle_flt_trans; [eapply Hle; exact Hz | exact Hry].
    + exists i. split.
      { rewrite lookup_app_l by exact Hlen. exact Hi. }
      intros Hnan. apply Forall_app in Hnan as [Hnan Hy].
      destruct (IH Hnan) as (_ & Hle & Hlt).
      split; [| split].
      * rewrite lookup_app_l by exact Hlen. exact Hi.
      * intros j z Hz.
        apply lookup_app_Some in Hz as [Hz | [_ Hz]].
        -- eapply Hle; exact Hz.
        -- apply list_lookup_singleton_Some in Hz as [_ <-].
           apply flt_false_fle; [| by inversion Hy | exact Hry].
           rewrite Forall_forall in Hnan. apply Hnan.
           eapply list_elem_of_lookup_2. exact Hi.
      * intros j z Hj Hz.
        rewrite lookup_app_l in Hz by lia.
        eapply Hlt; [exact Hj | exact Hz].
Qed.

Lemma py_max_first_argmax {A} (key : A → float) (xs : list A) :
  xs ≠ [] →
  ∃ i r,
    py_max key xs = OK r ∧
    xs !! i = Some r ∧
    (Forall (λ y, is_nan (key y) = false) xs → first_argmax key xs i r).
Proof.
  destruct xs as [| x xs]; [done |]. intros _.
  destruct (fold_max_step_first_argmax key xs x) as (i & Hi & Hmax).
  exists i, (fold_left (max_step key) xs x).
  split; [reflexivity |]. split; [exact Hi | exact Hmax].
Qed.

Section AgentProperties.
Context `{PyFloatRepr, RandomSource, GymEnv, SetOrder}.

Lemma with_rng_same (w : World) : with_rng w (rng w) = w.
Proof. destruct w; reflexivity. Qed.

Lemma variates_length (actdist : ActionDistribution) (g : RNG) :
  length (variates actdist g).1 = length actdist.
Proof.
  revert g. induction actdist as [| [a tv] rest IH]; intros g; [done |].
  simpl. destruct (beta_rvs _ g) as [x g1].
  specialize (IH g1). destruct (variates rest g1) as [xs g2].
  simpl in *. by rewrite IH.
Qed.

(** When every entry passes the check of [rvs], the comprehension of
    [thompson_sample] draws one variate per entry, in order. *)
Lemma draw_all (actdist : ActionDistribution) (w : World) :
  Forall (λ entry, beta_argcheck (tv_to_beta_default entry.2) = true)
    actdist →
  m_map (λ '(action, tv), p ← tv_rv tv; mret (action, p)) actdist w =
    (OK (zip actdist.*1 (variates actdist (rng w)).1),
     with_rng w (variates actdist (rng w)).2).
Proof.
  intros Hok. revert w.
  induction Hok as [| [a tv] rest Htv _ IH]; intros w.
  - simpl. by rewrite with_rng_same.
  - cbn [m_map]. unfold mbind at 1, M_bind.
    unfold mbind at 1, M_bind. unfold tv_rv at 1.
    simpl in Htv. rewrite Htv. unfold tv_to_beta_default.
    cbn [variates]. destruct (beta_rvs (tv_to_beta tv f_1 f_1) (rng w)) as [x g1].
    unfold mret at 1, M_ret.
    unfold mbind at 1, M_bind. rewrite IH. cbn [rng].
    destruct (variates rest g1) as [xs g2]. reflexivity.
Qed.

Lemma thompson_sample_run (actdist : ActionDistribution) (w : World) :
  actdist ≠ [] →
  Forall (λ entry, beta_argcheck (tv_to_beta_default entry.2) = true)
    actdist →
  ∃ i action tv pblty,
    actdist !! i = Some (action, tv) ∧
    (Forall (λ x, is_nan x = false) (variates actdist (rng w)).1 →
     first_argmax id (variates actdist (rng w)).1 i pblty) ∧
    thompson_sample actdist w =
      (OK (action, pblty), with_rng w (variates actdist (rng w)).2).
Proof.
  intros Hne Hok.
  set (xs := (variates actdist (rng w)).1).
  assert (Hlen : length xs = length actdist.*1).
  { subst xs. rewrite variates_length, length_fmap. reflexivity. }
  destruct (py_max_first_argmax snd (zip actdist.*1 xs))
    as (i & [action pblty] & Hmax & Hi & Hfirst).
  { destruct actdist; [done |]. destruct xs; [done |]. done. }
  apply lookup_zip_with_Some in Hi as (a' & p' & Heq & Ha & Hp).
  injection Heq as -> ->.
  apply list_lookup_fmap_Some in Ha as ([a tv] & -> & Hatv).
  exists i, a, tv, p'. split; [exact Hatv |]. split.
  - intros Hnan. destruct Hfirst as (_ & Hle & Hlt).
    { apply Forall_forall. intros [b y] Hby.
      apply list_elem_of_lookup in Hby as [j Hj].
      apply lookup_zip_with_Some in Hj as (b' & y' & [= -> ->] & _ & Hy).
      rewrite Forall_forall in Hnan. apply Hnan.
      eapply list_elem_of_lookup_2. exact Hy. }
    split; [exact Hp |]. split.
    + intros j y Hy.
      destruct (lookup_lt_is_Some_2 actdist.*1 j) as [b Hb].
      { rewrite <- Hlen. eapply lookup_lt_Some; exact Hy. }
      apply (Hle j (b, y)). apply lookup_zip_with_Some. eauto.
    + intros j y Hj Hy.
      destruct (lookup_lt_is_Some_2 actdist.*1 j) as [b Hb].
      { rewrite <- Hlen. eapply lookup_lt_Some; exact Hy. }
      apply (Hlt j (b, y) Hj). apply lookup_zip_with_Some. eauto.
  - unfold thompson_sample. unfold mbind at 1, M_bind.
    rewrite (draw_all _ _ Hok). fold xs. unfold lift. rewrite Hmax.
    reflexivity.
Qed.

End AgentProperties.



Example decide_tie_takes_first :
  decide
    [(Node SchemaNode "Go Right", mkTruthValue f_1 f_0);
     (Node SchemaNode "Go Left", mkTruthValue f_1 f_0);
     (Node SchemaNode "Stay", mkTruthValue f_1 f_0)] initial_world =
    (OK (Node SchemaNode "Go Left", float_literal 7 10),
     with_rng initial_world []).
Proof. vm_compute. reflexivity. Qed.

(** ** The planner *)

Lemma atomspace_tv_head (a : AtomSpace) (x : Atom) (v : TruthValue) :
  atomspace_tv ((x, v) :: a) x = Some v.
Proof.
  unfold atomspace_tv. simpl. rewrite bool_decide_eq_true_2; reflexivity.
Qed.

Lemma atomspace_tv_tail (a : AtomSpace) (x y : Atom) (v : TruthValue) :
  y ≠ x → atomspace_tv ((y, v) :: a) x = atomspace_tv a x.
Proof.
  intros Hne. unfold atomspace_tv. simpl.
  rewrite bool_decide_eq_false_2; [reflexivity | exact Hne].
Qed.

Section PlannerProperties.
Context `{PyFloatRepr, RandomSource, GymEnv}.

(** C4: whatever the goal, [plan] returns two schematics: one for
    "pole-angle > 0" with action "Go Right", one for "pole-angle < 0"
    with action "Go Left"; both have the given expiry as their time
    offset and the truth value (0.9, 0.1). *)
Theorem plan_two_schematics (goal : Atom) (expiry : PyNum) (w : World) :
  ∃ cs_l cs_r w',
    plan goal expiry w = (OK [cs_l; cs_r], w') ∧
    is_schematic cs_r (py_str expiry) pole_angle_positive
      (Node SchemaNode "Go Right") ∧
    is_schematic cs_l (py_str expiry) pole_angle_negative
      (Node SchemaNode "Go Left") ∧
    get_action cs_r = OK (Node SchemaNode "Go Right") ∧
    get_action cs_l = OK (Node SchemaNode "Go Left") ∧
    atomspace_tv (atomspace w') cs_r
      = Some (mkTruthValue f_0_9 f_0_1) ∧
    atomspace_tv (atomspace w') cs_l
      = Some (mkTruthValue f_0_9 f_0_1) ∧
    ∀ goal', plan goal' expiry w = plan goal expiry w.
Proof.
  do 3 eexists. split; [reflexivity |].
  split; [| split].
  - split; [reflexivity |]. split; [reflexivity |].
    eexists. split; [reflexivity |]. repeat split.
  - split; [reflexivity |]. split; [reflexivity |].
    eexists. split; [reflexivity |]. repeat split.
  - split; [reflexivity |]. split; [reflexivity |]. cbn [atomspace].
    split; [| split].
    + rewrite atomspace_tv_tail by discriminate. apply atomspace_tv_head.
    + apply atomspace_tv_head.
    + intros goal'. reflexivity.
Qed.
End PlannerProperties.

(** ** The deduction stub *)

Lemma well_formed_get_action (cs : Atom) :
  well_formed cs = true → ∃ action, get_action cs = OK action.
Proof.
  unfold well_formed.
  destruct (out cs !! 2%nat) as [body |] eqn:Hbody; [| done].
  rewrite (get_action_body _ _ Hbody).
  destruct (execution_clauses body) as [| execution [| ? ?]]; try done.
  destruct (out execution) as [| action rest]; [done |].
  intros _. exists action. reflexivity.
Qed.

Lemma exc_map_Forall2 {A B} (f : A → Exc B) (xs : list A) :
  Forall (λ x, ∃ y, f x = OK y) xs →
  ∃ ys, exc_map f xs = OK ys ∧ Forall2 (λ x y, f x = OK y) xs ys.
Proof.
  induction 1 as [| x xs [y Hy] _ (ys & Hys & IH)].
  - exists []. split; [reflexivity | constructor].
  - exists (y :: ys). split.
    + simpl. rewrite Hy. simpl. rewrite Hys. reflexivity.
    + constructor; assumption.
Qed.

Lemma well_formed_schematic_action (cs action : Atom) :
  well_formed cs = true →
  get_action cs = OK action ↔ schematic_action cs = Some action.
Proof.
  unfold well_formed, schematic_action.
  destruct (out cs !! 2%nat) as [body |] eqn:Hbody; [| done].
  rewrite (get_action_body _ _ Hbody).
  destruct (execution_clauses body) as [| execution [| ? ?]]; try done.
  destruct (out execution) as [| first rest]; [done |].
  intros _. unfold py_index. simpl. split; intros [= ->]; reflexivity.
Qed.

Lemma Forall2_OK_elem_of {A B} (f : A → Exc B) (xs : list A) (ys : list B) :
  Forall2 (λ x y, f x = OK y) xs ys →
  ∀ y, y ∈ ys ↔ ∃ x, x ∈ xs ∧ f x = OK y.
Proof.
  induction 1 as [| x y xs ys Hxy _ IH]; intros y'.
  - split; [intros Hin | intros (x & Hin & _)];
      apply elem_of_nil in Hin; contradiction.
  - rewrite elem_of_cons, IH. split.
    + intros [-> | (x' & Hin & HR)].
      * exists x. split; [left | exact Hxy].
      * exists x'. split; [right; exact Hin | exact HR].
    + intros (x' & Hin & HR). apply elem_of_cons in Hin as [-> | Hin].
      * left. congruence.
      * right. exists x'. split; assumption.
Qed.

Section DeductionProperties.
Context `{SetOrder}.

(** C5: on well-formed schematics [deduce] returns one entry for each
    distinct action token, the first outgoing atom of the execution
    clause of a schematic of the list: the keys have no duplicates, an
    atom is a key exactly when it is the action token of some input
    schematic, and every entry carries the truth value (1, 0). *)
Theorem deduce_one_entry_per_action (css : list Atom) :
  css ≠ [] →
  Forall (λ cs, well_formed cs = true) css →
  ∃ actdist,
    deduce css = OK actdist ∧
    NoDup actdist.*1 ∧
    (∀ action, action ∈ actdist.*1 ↔
       ∃ cs, cs ∈ css ∧ schematic_action cs = Some action) ∧
    (∀ entry, entry ∈ actdist → entry.2 = mkTruthValue f_1 f_0).
Proof.
  intros _ Hwf.
  destruct (exc_map_Forall2 get_action css) as (actions & Hmap & Hall).
  { eapply Forall_impl; [exact Hwf |]. apply well_formed_get_action. }
  eexists. unfold deduce. rewrite Hmap. split; [reflexivity |].
  rewrite <- list_fmap_compose.
  replace (fst ∘ _) with (@id Atom) by reflexivity. rewrite list_fmap_id.
  split; [| split].
  - rewrite set_iter_perm. apply NoDup_remove_dups.
  - intros action. rewrite set_iter_perm, elem_of_remove_dups.
    rewrite (Forall2_OK_elem_of _ _ _ Hall). split.
    + intros (cs & Hin & Hget). exists cs. split; [exact Hin |].
      apply well_formed_schematic_action; [| exact Hget].
      exact (proj1 (Forall_forall _ _) Hwf cs Hin).
    + intros (cs & Hin & Hact). exists cs. split; [exact Hin |].
      apply well_formed_schematic_action; [| exact Hact].
      exact (proj1 (Forall_forall _ _) Hwf cs Hin).
  - intros entry Hentry. apply list_elem_of_fmap in Hentry as (a & -> & _).
    reflexivity.
Qed.

(** C6 (as amended): on the empty list [deduce] returns the empty
    distribution. *)
Theorem deduce_nil : deduce [] = OK [].
Proof.
  unfold deduce. simpl.
  pose proof (set_iter_perm []) as Hperm. simpl in Hperm.
  apply Permutation_nil_r in Hperm. rewrite Hperm. reflexivity.
Qed.
End DeductionProperties.

Lemma deduce_one_entry_per_action_witness :
  ∃ actdist,
    deduce [sample_schematic go_left_body; sample_schematic go_right_body;
            sample_schematic go_left_body] = OK actdist ∧
    NoDup actdist.*1 ∧
    (∀ action, action ∈ actdist.*1 ↔
       ∃ cs, cs ∈ [sample_schematic go_left_body;
                   sample_schematic go_right_body;
                   sample_schematic go_left_body] ∧
         schematic_action cs = Some action) ∧
    (∀ entry, entry ∈ actdist → entry.2 = mkTruthValue f_1 f_0).
Proof.
  apply (deduce_one_entry_per_action
           [sample_schematic go_left_body; sample_schematic go_right_body;
            sample_schematic go_left_body]).
  - discriminate.
  - repeat constructor.
Defined.

Example deduce_three_schematics :
  deduce [sample_schematic go_left_body; sample_schematic go_right_body;
          sample_schematic go_left_body] =
    OK [(Node SchemaNode "Go Right", mkTruthValue f_1 f_0);
        (Node SchemaNode "Go Left", mkTruthValue f_1 f_0)].
Proof. reflexivity. Qed.

(** C6, counterexample: the empty list of schematics does not make
    [deduce] raise. *)
Lemma deduce_nil_does_not_raise :
  ¬ ∃ e : PyExc, deduce [] = Raise e.
Proof. intros [e He]. discriminate He. Qed.

(** ** The timestep controller *)

Lemma Forall2_exc_map {A B} (f : A → Exc B) (xs : list A) (ys : list B) :
  Forall2 (λ x y, f x = OK y) xs ys → exc_map f xs = OK ys.
Proof.
  induction 1 as [| x y xs ys Hy _ IH]; [reflexivity |].
  simpl. rewrite Hy. simpl. rewrite IH. reflexivity.
Qed.

Lemma action_to_gym_planned (actions : list Atom) (action : Atom) :
  actions ≡ₚ [Node SchemaNode "Go Left"; Node SchemaNode "Go Right"] →
  action ∈ actions →
  ∃ a, (a = 0 ∨ a = 1) ∧ action_to_gym action = Some a.
Proof.
  intros Hperm Hin. rewrite Hperm in Hin.
  apply elem_of_cons in Hin as [-> | Hin].
  - exists 1. split; [right |]; reflexivity.
  - apply list_elem_of_singleton in Hin as ->.
    exists 0. split; [left |]; reflexivity.
Qed.

Section ControllerProperties.
Context `{PyFloatRepr, RandomSource, GymEnv, SetOrder}.

Lemma bind_run {A B} (m : M A) (k : A → M B) (w : World) :
  (m ≫= k) w =
    match m w with
    | (OK a, w') => k a w'
    | (Raise e, w') => (Raise e, w')
    end.
Proof. reflexivity. Qed.

Lemma decide_member (actdist : ActionDistribution) (w : World) :
  actdist ≠ [] →
  Forall (λ entry, beta_argcheck (tv_to_beta_default entry.2) = true)
    actdist →
  ∃ action pblty,
    action ∈ actdist.*1 ∧
    decide actdist w =
      (OK (action, pblty), with_rng w (variates actdist (rng w)).2).
Proof.
  intros Hne Hok.
  destruct (thompson_sample_run actdist w Hne Hok)
    as (i & action & tv & pblty & Hi & _ & Hrun).
  exists action, pblty. split.
  2: { unfold decide. unfold mbind at 1, M_bind. rewrite Hrun.
       reflexivity. }
  apply list_elem_of_fmap. exists (action, tv). split; [reflexivity |].
  eapply list_elem_of_lookup_2. exact Hi.
Qed.

Lemma timestamp_all_run (atoms : list Atom) (i : Z) (tv : TruthValue)
    (w : World) :
  ∃ stamped asp,
    m_map (λ o, timestamp o i (Some tv)) atoms w =
      (OK stamped, with_atomspace w asp).
Proof.
  revert w. induction atoms as [| o atoms IH]; intros w.
  - exists [], (atomspace w). destruct w; reflexivity.
  - cbn [m_map]. rewrite bind_run.
    change (timestamp o i (Some tv) w) with
      (OK (Link AtTimeLink [o; Node TimeNode (py_str (PyInt i))]),
       with_atomspace w
         ((Link AtTimeLink [o; Node TimeNode (py_str (PyInt i))], tv)
            :: atomspace w)).
    cbv beta iota. rewrite bind_run.
    destruct (IH (with_atomspace w
         ((Link AtTimeLink [o; Node TimeNode (py_str (PyInt i))], tv)
            :: atomspace w))) as (stamped & asp & ->).
    cbv beta iota. eexists _, asp. reflexivity.
Qed.

Lemma plan_run (goal : Atom) (expiry : PyNum) (w : World) :
  ∃ css asp,
    plan goal expiry w = (OK css, with_atomspace w asp) ∧
    Forall2 (λ cs action, get_action cs = OK action) css
      [Node SchemaNode "Go Left"; Node SchemaNode "Go Right"].
Proof.
  do 2 eexists. split; [reflexivity |].
  repeat constructor.
Qed.

(** One tick, up to what the environment answers: the action code handed
    to [env.step] is [0] or [1]; if the step raises, the exception leaves
    the tick with the counter and the observation as they were; if it
    returns, the reward is stamped, the counter advances and the signal
    follows [done]. *)
Lemma cartpole_step_run (w : World) :
  ∃ a asp g,
    (a = 0 ∨ a = 1) ∧
    cartpole_step w =
      match env_step (env_at_step w) (Some a) with
      | (OK (observation', reward, done, _), e) =>
          (OK (if done : bool then mkTruthValue f_0 f_1 else mkTruthValue f_1 f_1),
           mkWorld
             ((Link AtTimeLink
                 [reward_to_atomese (PyFloat reward);
                  Node TimeNode (py_str (PyInt (cartpole_step_count w)))],
               TRUE_TV) :: asp)
             g (if done then env_close e else e) observation'
             (cartpole_step_count w + 1))
      | (Raise ex, e) =>
          (Raise ex,
           mkWorld asp g e (observation w) (cartpole_step_count w))
      end.
Proof.
  unfold cartpole_step. rewrite bind_run. cbn [get_world].
  rewrite bind_run.
  destruct (timestamp_all_run (observation_to_atomese (observation w))
              (cartpole_step_count w) TRUE_TV w) as (stamped & asp1 & ->).
  rewrite bind_run.
  set (w2 := with_atomspace (mkWorld (atomspace w) (rng w) (env_at_step w)
                               (observation w) (cartpole_step_count w)) asp1).
  replace ((if X_ENABLED then render else mret ()) (with_atomspace w asp1))
    with (OK tt, w2)
    by (unfold w2, env_at_step; destruct X_ENABLED; reflexivity).
  rewrite bind_run.
  destruct (plan_run (make_goal (cartpole_step_count w)) (PyInt 1) w2)
    as (css & asp2 & -> & Hactions).
  rewrite bind_run. unfold lift at 1, deduce.
  rewrite (Forall2_exc_map _ _ _ Hactions).
  cbn [mbind Exc_bind].
  set (actions := set_iter _).
  assert (Hperm : actions ≡ₚ
            [Node SchemaNode "Go Left"; Node SchemaNode "Go Right"]).
  { unfold actions. rewrite set_iter_perm. reflexivity. }
  destruct (decide_member
              (map (λ action, (action, mkTruthValue f_1 f_0)) actions)
              (with_atomspace w2 asp2))
    as (action & pblty & Hin & Hdecide).
  { intros Hnil. apply fmap_nil_inv in Hnil. rewrite Hnil in Hperm.
    apply Permutation_nil in Hperm. discriminate Hperm. }
  { apply Forall_fmap, Forall_forall. intros ? _. reflexivity. }
  rewrite <- list_fmap_compose in Hin.
  change (action ∈ id <$> actions) in Hin. rewrite list_fmap_id in Hin.
  destruct (action_to_gym_planned actions action Hperm Hin)
    as (a & Ha & Hgym).
  exists a. do 2 eexists. split; [exact Ha |].
  rewrite bind_run, Hdecide. cbv beta iota. rewrite Hgym.
  rewrite bind_run. unfold step at 1.
  cbn [env with_rng with_atomspace w2 atomspace rng observation
       cartpole_step_count].
  destruct (env_step (env_at_step w) (Some a))
    as [[[[[observation' reward] done] info] | ex] e]; [| reflexivity].
  destruct done; reflexivity.
Qed.

(** C9: a tick hands [env.step] the code of "Go Right" or "Go Left"; when
    that step reports [done], the tick closes the environment and
    returns the truth value (0, 1), and otherwise it returns (1, 1) and
    leaves the environment open.  (An exception of the environment
    leaves the tick unchanged.) *)
Theorem cartpole_step_signal (w : World) :
  ∃ a,
    (a = 0 ∨ a = 1) ∧
    match env_step (env_at_step w) (Some a) with
    | (OK (_, _, done, _), e) =>
        ∃ w',
          cartpole_step w =
            (OK (if done : bool then mkTruthValue f_0 f_1 else mkTruthValue f_1 f_1),
             w') ∧
          env w' = (if done then env_close e else e)
    | (Raise ex, _) => ∃ w', cartpole_step w = (Raise ex, w')
    end.
Proof.
  destruct (cartpole_step_run w) as (a & asp & g & Ha & Hrun).
  exists a. split; [exact Ha |]. rewrite Hrun.
  destruct (env_step (env_at_step w) (Some a))
    as [[[[[observation' reward] done] info] | ex] e].
  - eexists. split; reflexivity.
  - eexists. reflexivity.
Qed.

(** C10: every tick whose environment step returns, be it with [done]
    or not, returns its signal with the step counter advanced by exactly
    one; a tick that the environment aborts leaves the counter alone. *)
Theorem cartpole_step_count_advances (w : World) :
  ∃ a,
    (a = 0 ∨ a = 1) ∧
    match env_step (env_at_step w) (Some a) with
    | (OK (_, _, done, _), _) =>
        ∃ tv w',
          cartpole_step w = (OK tv, w') ∧
          cartpole_step_count w' = cartpole_step_count w + 1
    | (Raise ex, _) =>
        ∃ w',
          cartpole_step w = (Raise ex, w') ∧
          cartpole_step_count w' = cartpole_step_count w
    end.
Proof.
  destruct (cartpole_step_run w) as (a & asp & g & Ha & Hrun).
  exists a. split; [exact Ha |]. rewrite Hrun.
  destruct (env_step (env_at_step w) (Some a))
    as [[[[[observation' reward] done] info] | ex] e].
  - do 2 eexists. split; reflexivity.
  - eexists. split; reflexivity.
Qed.
End ControllerProperties.

(** Two ticks of an episode of two steps: the first continues, the second
    ends the episode, closes the environment and still counts. *)
Example two_ticks :
  ∃ w1 w2,
    cartpole_step initial_world = (OK (mkTruthValue f_1 f_1), w1) ∧
    cartpole_step_count w1 = 1 ∧ env w1 = 1%nat ∧
    cartpole_step w1 = (OK (mkTruthValue f_0 f_1), w2) ∧
    cartpole_step_count w2 = 2 ∧ env w2 = 0%nat.
Proof.
  do 2 eexists.
  split; [vm_compute; reflexivity |].
  split; [reflexivity |]. split; [reflexivity |].
  split; [vm_compute; reflexivity |].
  split; reflexivity.
Qed.

(** * Further properties *)

(** ** Zero evidence *)

Lemma feq_refl (x : float) : is_nan x = false → feq x x = true.
Proof.
  destruct x as [s | s | | s m e]; cbn [is_nan]; try discriminate; intros _.
  - reflexivity.
  - destruct s; reflexivity.
  - unfold feq, SFeqb. cbn [SFcompare].
    rewrite Z.compare_refl.
    change (Pos.compare_cont Eq m m) with (Pos.compare m m).
    rewrite Pos.compare_refl. destruct s; reflexivity.
Qed.

(** X2: a truth value whose count is zero gives back the priors, whatever
    the (finite) strength: [a == prior_a] and [b == prior_b]; the very
    same double comes back unless the prior is a zero, whose sign the
    additions may change. *)
Theorem tv_to_beta_zero_evidence (tv : TruthValue) (prior_a prior_b : float) :
  feq (tv_count tv) f_0 = true →
  is_finite (tv_mean tv) = true →
  is_nan prior_a = false → is_nan prior_b = false →
  feq (beta_a (tv_to_beta tv prior_a prior_b)) prior_a = true ∧
  feq (beta_b (tv_to_beta tv prior_a prior_b)) prior_b = true ∧
  (feq prior_a f_0 = false → beta_a (tv_to_beta tv prior_a prior_b) = prior_a) ∧
  (feq prior_b f_0 = false → beta_b (tv_to_beta tv prior_a prior_b) = prior_b).
Proof.
  destruct tv as [mean count]. cbn [tv_mean tv_count tv_to_beta beta_a beta_b].
  intros Hc Hm Ha Hb.
  destruct count as [sc | [] | | [] mc ec]; try discriminate Hc.
  assert (∃ sp, fmul (S754_zero sc) mean = S754_zero sp) as [sp ->].
  { destruct mean as [sm | sm | | sm mm em]; try discriminate Hm;
      eexists; reflexivity. }
  repeat split.
  - destruct prior_a as [s | s | | s m e]; try discriminate Ha.
    + destruct s, sp; reflexivity.
    + apply feq_refl. reflexivity.
    + apply (feq_refl (S754_finite s m e)). reflexivity.
  - destruct prior_b as [s | s | | s m e]; try discriminate Hb.
    + destruct s, sc, sp; reflexivity.
    + apply feq_refl. reflexivity.
    + apply (feq_refl (S754_finite s m e)). reflexivity.
  - destruct prior_a as [s | s | | s m e]; try discriminate Ha;
      [discriminate | reflexivity | reflexivity].
  - destruct prior_b as [s | s | | s m e]; try discriminate Hb;
      [discriminate | reflexivity | reflexivity].
Qed.

Lemma tv_to_beta_zero_evidence_witness :
  feq (beta_a (tv_to_beta (mkTruthValue f_0_9 f_0) f_1 f_1)) f_1 = true ∧
  feq (beta_b (tv_to_beta (mkTruthValue f_0_9 f_0) f_1 f_1)) f_1 = true ∧
  (feq f_1 f_0 = false →
   beta_a (tv_to_beta (mkTruthValue f_0_9 f_0) f_1 f_1) = f_1) ∧
  (feq f_1 f_0 = false →
   beta_b (tv_to_beta (mkTruthValue f_0_9 f_0) f_1 f_1) = f_1).
Proof.
  apply (tv_to_beta_zero_evidence (mkTruthValue f_0_9 f_0) f_1 f_1);
    reflexivity.
Defined.

(** ** Action codes *)

(** X3: the only action codes are 0 and 1, and two atoms with the same
    code are the same atom. *)
Theorem action_to_gym_injective (a b : Atom) (n : Z) :
  action_to_gym a = Some n →
  action_to_gym b = Some n →
  (n = 0 ∨ n = 1) ∧ a = b.
Proof.
  unfold action_to_gym. repeat case_decide; intros Ha Hb;
    simplify_eq; auto.
Qed.

Lemma action_to_gym_injective_witness :
  (1 = 0 ∨ 1 = 1) ∧ Node SchemaNode "Go Left" = Node SchemaNode "Go Left".
Proof.
  apply (action_to_gym_injective (Node SchemaNode "Go Left")
           (Node SchemaNode "Go Left") 1); reflexivity.
Defined.

(** ** Malformed schematics *)

(** X4: an atom with fewer than three outgoing atoms, a node in
    particular, makes [get_action] raise [IndexError]. *)
Theorem get_action_short (cs : Atom) :
  (length (out cs) ≤ 2)%nat → get_action cs = Raise IndexError.
Proof.
  intros Hlen. unfold get_action, py_index.
  rewrite (lookup_ge_None_2 (out cs) 2 Hlen). reflexivity.
Qed.

Lemma get_action_short_witness :
  get_action (Node SchemaNode "Go Left") = Raise IndexError ∧
  get_action (Link PredictiveImplicationScopeLink
                [Node NumberNode "1"; Link AndLink go_left_body])
    = Raise IndexError.
Proof.
  split.
  - apply (get_action_short (Node SchemaNode "Go Left")). simpl. lia.
  - apply (get_action_short
             (Link PredictiveImplicationScopeLink
                [Node NumberNode "1"; Link AndLink go_left_body])).
    simpl. lia.
Defined.

(** X5: when the first execution clause of the body has no outgoing
    atom, [get_action] raises [IndexError], whatever follows it. *)
Theorem get_action_empty_execution (cs body execution : Atom)
    (rest : list Atom) :
  out cs !! 2%nat = Some body →
  execution_clauses body = execution :: rest →
  out execution = [] →
  get_action cs = Raise IndexError.
Proof.
  intros Hbody Hexec Hout. rewrite (get_action_body _ _ Hbody), Hexec.
  unfold py_index. rewrite Hout. reflexivity.
Qed.

Lemma get_action_empty_execution_witness :
  get_action
    (sample_schematic
       [Link ExecutionLink []; Link ExecutionLink [Node SchemaNode "Go Left"]])
    = Raise IndexError.
Proof.
  eapply (get_action_empty_execution
            (sample_schematic
               [Link ExecutionLink [];
                Link ExecutionLink [Node SchemaNode "Go Left"]]));
    reflexivity.
Defined.

(** X6: [get_action] looks at nothing but the execution clauses of the
    third outgoing atom: two schematics whose bodies have the same
    execution clauses give the same result, whatever their variables,
    expiry, context clauses and goal. *)
Theorem get_action_same_executions (cs cs' body body' : Atom) :
  out cs !! 2%nat = Some body →
  out cs' !! 2%nat = Some body' →
  execution_clauses body = execution_clauses body' →
  get_action cs = get_action cs'.
Proof.
  intros Hbody Hbody' Hexec.
  rewrite (get_action_body _ _ Hbody), (get_action_body _ _ Hbody'), Hexec.
  reflexivity.
Qed.

Lemma get_action_same_executions_witness :
  get_action (sample_schematic go_left_body) =
  get_action
    (Link ListLink
       [Node NumberNode "7"; Node NumberNode "8";
        Link ListLink [Link ExecutionLink [Node SchemaNode "Go Left"]]]).
Proof.
  eapply (get_action_same_executions (sample_schematic go_left_body));
    reflexivity.
Defined.

(** ** Deduction over arbitrary schematics *)

Lemma exc_map_app_raise {A B} (f : A → Exc B) (pre post : list A) (x : A)
    (e : PyExc) :
  Forall (λ y, ∃ z, f y = OK z) pre →
  f x = Raise e →
  exc_map f (pre ++ x :: post) = Raise e.
Proof.
  intros Hpre Hx. induction Hpre as [| y pre [z Hz] _ IH].
  - simpl. rewrite Hx. reflexivity.
  - simpl. rewrite Hz. simpl. rewrite IH. reflexivity.
Qed.

Lemma exc_map_inv {A B} (f : A → Exc B) (xs : list A) (ys : list B) :
  exc_map f xs = OK ys → Forall2 (λ x y, f x = OK y) xs ys.
Proof.
  revert ys. induction xs as [| x xs IH]; intros ys Hmap.
  - injection Hmap as <-. constructor.
  - simpl in Hmap. destruct (f x) as [y |] eqn:Hy; [| discriminate].
    simpl in Hmap. destruct (exc_map f xs) as [ys' |]; [| discriminate].
    injection Hmap as <-. constructor; [exact Hy | by apply IH].
Qed.

Lemma remove_dups_length_le {A} `{EqDecision A} (l : list A) :
  (length (remove_dups l) ≤ length l)%nat.
Proof.
  induction l as [| x l IH]; [done |].
  simpl. destruct (decide_rel elem_of x l); simpl; lia.
Qed.

Section DeductionExtras.
Context `{SetOrder}.

(** X7: [deduce] raises the exception of the first schematic from which
    [get_action] cannot extract an action; the schematics after it are not
    looked at. *)
Theorem deduce_first_failure (pre post : list Atom) (cs : Atom) (e : PyExc) :
  Forall (λ c, ∃ action, get_action c = OK action) pre →
  get_action cs = Raise e →
  deduce (pre ++ cs :: post) = Raise e.
Proof.
  intros Hpre Hcs. unfold deduce.
  rewrite (exc_map_app_raise get_action pre post cs e Hpre Hcs).
  reflexivity.
Qed.

(** X8: the distribution depends only on which actions occur: two lists
    of schematics with the same actions, in any order and with any
    repetitions, give the same entries up to their order. *)
Theorem deduce_same_actions (css1 css2 actions1 actions2 : list Atom) :
  Forall2 (λ cs action, get_action cs = OK action) css1 actions1 →
  Forall2 (λ cs action, get_action cs = OK action) css2 actions2 →
  (∀ action, action ∈ actions1 ↔ action ∈ actions2) →
  ∃ actdist1 actdist2,
    deduce css1 = OK actdist1 ∧
    deduce css2 = OK actdist2 ∧
    actdist1 ≡ₚ actdist2.
Proof.
  intros H1 H2 Hsame. unfold deduce.
  rewrite (Forall2_exc_map _ _ _ H1), (Forall2_exc_map _ _ _ H2).
  do 2 eexists. split; [reflexivity |]. split; [reflexivity |].
  apply fmap_Permutation. rewrite !set_iter_perm.
  apply NoDup_Permutation; [apply NoDup_remove_dups .. |].
  intros action. rewrite !elem_of_remove_dups. apply Hsame.
Qed.

(** X9: a distribution returned by [deduce] has at most as many entries
    as there are schematics. *)
Theorem deduce_length (css : list Atom) (actdist : ActionDistribution) :
  deduce css = OK actdist → (length actdist ≤ length css)%nat.
Proof.
  unfold deduce. intros Hdeduce.
  destruct (exc_map get_action css) as [actions |] eqn:Hmap; [| discriminate].
  simpl in Hdeduce. injection Hdeduce as <-.
  apply exc_map_inv, Forall2_length in Hmap.
  rewrite length_map, set_iter_perm, Hmap.
  apply remove_dups_length_le.
Qed.
End DeductionExtras.

Lemma deduce_first_failure_witness :
  deduce [sample_schematic go_left_body; Node SchemaNode "Go Left";
          sample_schematic go_right_body] = Raise IndexError.
Proof.
  apply (deduce_first_failure [sample_schematic go_left_body]
           [sample_schematic go_right_body] (Node SchemaNode "Go Left")
           IndexError).
  - repeat constructor. eexists. reflexivity.
  - reflexivity.
Defined.

Lemma deduce_same_actions_witness :
  ∃ actdist1 actdist2,
    deduce [sample_schematic go_left_body; sample_schematic go_right_body;
            sample_schematic go_left_body] = OK actdist1 ∧
    deduce [sample_schematic go_right_body; sample_schematic go_left_body]
      = OK actdist2 ∧
    actdist1 ≡ₚ actdist2.
Proof.
  apply (deduce_same_actions
           [sample_schematic go_left_body; sample_schematic go_right_body;
            sample_schematic go_left_body]
           [sample_schematic go_right_body; sample_schematic go_left_body]
           [Node SchemaNode "Go Left"; Node SchemaNode "Go Right";
            Node SchemaNode "Go Left"]
           [Node SchemaNode "Go Right"; Node SchemaNode "Go Left"]).
  - repeat constructor.
  - repeat constructor.
  - intros action. rewrite !elem_of_cons, !elem_of_nil. tauto.
Defined.

Lemma deduce_length_witness :
  (length [(Node SchemaNode "Go Right", mkTruthValue f_1 f_0);
           (Node SchemaNode "Go Left", mkTruthValue f_1 f_0)] ≤ 3)%nat.
Proof.
  apply (deduce_length
           [sample_schematic go_left_body; sample_schematic go_right_body;
            sample_schematic go_left_body]).
  reflexivity.
Defined.

(** ** Strings of step indices *)

Lemma to_int_proper (z : Z) :
  Z.to_int z ≠ Decimal.Pos Decimal.Nil ∧ Z.to_int z ≠ Decimal.Neg Decimal.Nil.
Proof.
  destruct z as [| p | p]; simpl; split; try discriminate;
    intros [= Hp]; exact (DecimalPos.Unsigned.to_uint_nonnil p Hp).
Qed.

Lemma str_int_inj `{PyFloatRepr} (i j : Z) :
  py_str (PyInt i) = py_str (PyInt j) → i = j.
Proof.
  simpl. intros Hstr. apply DecimalZ.to_int_inj.
  destruct (to_int_proper i) as [Hi1 Hi2], (to_int_proper j) as [Hj1 Hj2].
  pose proof (DecimalString.NilZero.isi _ Hi1 Hi2) as Hi.
  pose proof (DecimalString.NilZero.isi _ Hj1 Hj2) as Hj.
  rewrite Hstr, Hj in Hi. by injection Hi.
Qed.

Section AtomeseExtras.
Context `{PyFloatRepr, RandomSource, GymEnv}.

(** X10: [timestamp] returns the same atom only for the same atom at the
    same step index: what is stamped in one tick never coincides with what
    is stamped in another. *)
Theorem timestamp_injective (atom atom' : Atom) (i j : Z)
    (tv tv' : option TruthValue) (w w' : World) :
  (timestamp atom i tv w).1 = (timestamp atom' j tv' w').1 →
  atom = atom' ∧ i = j.
Proof.
  unfold timestamp, new_link. destruct tv, tv'; cbn; intros [= -> Hstr];
    (split; [reflexivity | exact (str_int_inj i j Hstr)]).
Qed.

(** X11: whatever the observation, even with equal channels,
    [observation_to_atomese] returns four atoms that are pairwise
    different evaluation links. *)
Theorem observation_to_atomese_distinct (observation : Observation) :
  length (observation_to_atomese observation) = 4%nat ∧
  NoDup (observation_to_atomese observation) ∧
  Forall (λ o, atom_type o = EvaluationLink)
    (observation_to_atomese observation).
Proof.
  split; [reflexivity |]. split.
  - unfold observation_to_atomese.
    repeat (apply NoDup_cons; split;
            [rewrite ?elem_of_cons, elem_of_nil;
             intros Hin; repeat destruct Hin as [Hin | Hin];
             try discriminate Hin; exact Hin |]).
    apply NoDup_nil. done.
  - repeat constructor.
Qed.

(** X12: on an empty action distribution [decide] raises the [ValueError]
    of [max], and so does [thompson_sample]; no variate is drawn and the
    rest of the state is as before. *)
Theorem decide_empty (w : World) :
  thompson_sample [] w = (Raise ValueError, w) ∧
  decide [] w = (Raise ValueError, w).
Proof. split; reflexivity. Qed.
End AtomeseExtras.

Lemma timestamp_injective_witness :
  Node PredicateNode "Reward" = Node PredicateNode "Reward" ∧ 3 = 3.
Proof.
  apply (timestamp_injective (Node PredicateNode "Reward")
           (Node PredicateNode "Reward") 3 3 (Some TRUE_TV) None
           initial_world initial_world).
  reflexivity.
Defined.

(** ** The planner and the state *)

Lemma atomspace_tv_prefix (pre a : AtomSpace) (x : Atom) (v : TruthValue) :
  x ∈ pre.*1 →
  (∀ u, (x, u) ∈ pre → u = v) →
  atomspace_tv (pre ++ a) x = Some v.
Proof.
  induction pre as [| [y u] pre IH]; intros Hin Hall.
  - by apply elem_of_nil in Hin.
  - destruct (base.decide (y = x)) as [-> | Hne].
    + rewrite (Hall u) by left. apply atomspace_tv_head.
    + simpl. rewrite atomspace_tv_tail by exact Hne. apply IH.
      * simpl in Hin. apply elem_of_cons in Hin as [Heq | Hin];
          [congruence | exact Hin].
      * intros u' Hu'. apply Hall. by right.
Qed.

Section PlannerExtras.
Context `{PyFloatRepr, RandomSource, GymEnv, SetOrder}.

(** X13: [plan] touches nothing but the truth values of the schematics it
    returns: the random source, the environment, the stored observation
    and the counter are as before, and so is the truth value of every
    other atom. *)
Theorem plan_frame (goal : Atom) (expiry : PyNum) (w : World) :
  ∃ css w',
    plan goal expiry w = (OK css, w') ∧
    rng w' = rng w ∧ env w' = env w ∧
    observation w' = observation w ∧
    cartpole_step_count w' = cartpole_step_count w ∧
    ∀ x, x ∉ css →
      atomspace_tv (atomspace w') x = atomspace_tv (atomspace w) x.
Proof.
  do 2 eexists. split; [reflexivity |].
  do 4 (split; [reflexivity |]).
  intros x Hx. apply not_elem_of_cons in Hx as [Hl Hx].
  apply not_elem_of_cons in Hx as [Hr _].
  cbn [atomspace].
  rewrite atomspace_tv_tail by congruence.
  rewrite atomspace_tv_tail by congruence.
  reflexivity.
Qed.

(** X14: planning and then deducing gives, for every goal, expiry and
    iteration order of the set, the two entries "Go Left" and "Go Right",
    both with the truth value (1, 0): the truth value (0.9, 0.1) of the
    schematics does not reach the distribution. *)
Theorem plan_then_deduce (goal : Atom) (expiry : PyNum) (w : World) :
  ∃ css w' actdist,
    plan goal expiry w = (OK css, w') ∧
    deduce css = OK actdist ∧
    actdist ≡ₚ [(Node SchemaNode "Go Left", mkTruthValue f_1 f_0);
                (Node SchemaNode "Go Right", mkTruthValue f_1 f_0)].
Proof.
  destruct (plan_run goal expiry w) as (css & asp & Hplan & Hactions).
  exists css, (with_atomspace w asp). eexists.
  split; [exact Hplan |]. unfold deduce.
  rewrite (Forall2_exc_map _ _ _ Hactions). split; [reflexivity |].
  change [(Node SchemaNode "Go Left", mkTruthValue f_1 f_0);
          (Node SchemaNode "Go Right", mkTruthValue f_1 f_0)]
    with (map (λ action, (action, mkTruthValue f_1 f_0))
            [Node SchemaNode "Go Left"; Node SchemaNode "Go Right"]).
  apply fmap_Permutation. rewrite set_iter_perm. reflexivity.
Qed.
End PlannerExtras.

(** ** What a tick leaves behind *)

Section ControllerExtras.
Context `{PyFloatRepr, RandomSource, GymEnv, SetOrder}.

Lemma with_atomspace_twice (w : World) (a b : AtomSpace) :
  with_atomspace (with_atomspace w a) b = with_atomspace w b.
Proof. reflexivity. Qed.

Lemma timestamp_all_trace (atoms : list Atom) (i : Z) (tv : TruthValue)
    (w : World) :
  m_map (λ o, timestamp o i (Some tv)) atoms w =
    (OK (map (λ o, stamped o i) atoms),
     with_atomspace w
       (rev (map (λ o, (stamped o i, tv)) atoms) ++ atomspace w)).
Proof.
  revert w. induction atoms as [| o atoms IH]; intros w.
  - destruct w; reflexivity.
  - cbn [m_map]. rewrite bind_run.
    change (timestamp o i (Some tv) w) with
      (OK (stamped o i),
       with_atomspace w ((stamped o i, tv) :: atomspace w)).
    cbv beta iota. rewrite bind_run, IH. cbv beta iota.
    rewrite with_atomspace_twice. cbn [map rev atomspace with_atomspace].
    rewrite <- app_assoc. reflexivity.
Qed.

Lemma plan_trace (goal : Atom) (expiry : PyNum) (w : World) :
  ∃ css,
    plan goal expiry w =
      (OK css,
       with_atomspace w
         (map (λ cs, (cs, mkTruthValue f_0_9 f_0_1)) css
            ++ atomspace w)) ∧
    Forall (λ cs, atom_type cs = PredictiveImplicationScopeLink) css ∧
    Forall2 (λ cs action, get_action cs = OK action) css
      [Node SchemaNode "Go Left"; Node SchemaNode "Go Right"].
Proof.
  exists (match (plan goal expiry w).1 with OK css => css | Raise _ => [] end).
  split; [reflexivity |]. split; repeat constructor.
Qed.

Lemma variates_same_tv (tv : TruthValue) (actions : list Atom) (g : RNG) :
  (variates (map (λ action, (action, tv)) actions) g).2 =
    draws_after tv (length actions) g.
Proof.
  revert g. induction actions as [| action actions IH]; intros g.
  - reflexivity.
  - cbn [map variates length].
    destruct (beta_rvs (tv_to_beta tv f_1 f_1) g) as [x g1] eqn:Hdraw.
    specialize (IH g1).
    destruct (variates (map (λ action, (action, tv)) actions) g1)
      as [xs g2].
    simpl in IH. simpl. rewrite IH. unfold draws_after.
    replace g1 with (beta_rvs (tv_to_beta tv f_1 f_1) g).2
      by (rewrite Hdraw; reflexivity).
    exact (Nat.iter_swap (length actions) RNG
             (λ g', (beta_rvs (tv_to_beta tv f_1 f_1) g').2) g).
Qed.

(** One tick in full: the atomspace and the random source with which the
    environment step is reached are spelled out. *)
Lemma cartpole_step_trace (w : World) :
  ∃ a css,
    (a = 0 ∨ a = 1) ∧
    Forall (λ cs, atom_type cs = PredictiveImplicationScopeLink) css ∧
    let i := cartpole_step_count w in
    let asp :=
      map (λ cs, (cs, mkTruthValue f_0_9 f_0_1)) css ++
      rev (map (λ o, (stamped o i, TRUE_TV))
             (observation_to_atomese (observation w))) ++
      atomspace w in
    let g := draws_after (mkTruthValue f_1 f_0) 2 (rng w) in
    cartpole_step w =
      match env_step (env_at_step w) (Some a) with
      | (OK (observation', reward, done, _), e) =>
          (OK (if done : bool then mkTruthValue f_0 f_1 else mkTruthValue f_1 f_1),
           mkWorld
             ((stamped (reward_to_atomese (PyFloat reward)) i, TRUE_TV)
                :: asp)
             g (if done then env_close e else e) observation' (i + 1))
      | (Raise ex, e) => (Raise ex, mkWorld asp g e (observation w) i)
      end.
Proof.
  unfold cartpole_step. rewrite bind_run. cbn [get_world].
  rewrite bind_run, timestamp_all_trace. rewrite bind_run.
  set (asp1 := rev _ ++ atomspace w).
  set (w2 := with_atomspace (mkWorld (atomspace w) (rng w) (env_at_step w)
                               (observation w) (cartpole_step_count w)) asp1).
  replace ((if X_ENABLED then render else mret ()) (with_atomspace w asp1))
    with (OK tt, w2)
    by (unfold w2, env_at_step; destruct X_ENABLED; reflexivity).
  rewrite bind_run.
  destruct (plan_trace (make_goal (cartpole_step_count w)) (PyInt 1) w2)
    as (css & -> & Htypes & Hactions).
  rewrite bind_run. unfold lift at 1, deduce.
  rewrite (Forall2_exc_map _ _ _ Hactions).
  cbn [mbind Exc_bind].
  set (actions := set_iter _).
  assert (Hperm : actions ≡ₚ
            [Node SchemaNode "Go Left"; Node SchemaNode "Go Right"]).
  { unfold actions. rewrite set_iter_perm. reflexivity. }
  set (w3 := with_atomspace w2 _).
  destruct (decide_member
              (map (λ action, (action, mkTruthValue f_1 f_0)) actions) w3)
    as (action & pblty & Hin & Hdecide).
  { intros Hnil. apply fmap_nil_inv in Hnil. rewrite Hnil in Hperm.
    apply Permutation_nil in Hperm. discriminate Hperm. }
  { apply Forall_fmap, Forall_forall. intros ? _. reflexivity. }
  rewrite <- list_fmap_compose in Hin.
  change (action ∈ id <$> actions) in Hin. rewrite list_fmap_id in Hin.
  destruct (action_to_gym_planned actions action Hperm Hin)
    as (a & Ha & Hgym).
  rewrite variates_same_tv, (Permutation_length Hperm) in Hdecide.
  exists a, css. split; [exact Ha |]. split; [exact Htypes |].
  cbv zeta.
  rewrite bind_run, Hdecide. cbv beta iota. rewrite Hgym.
  rewrite bind_run. unfold step at 1.
  cbn [env with_rng with_atomspace w3 w2 atomspace rng observation
       cartpole_step_count length].
  destruct (env_step (env_at_step w) (Some a))
    as [[[[[observation' reward] done] info] | ex] e]; [| reflexivity].
  destruct done; reflexivity.
Qed.

(** X15: every tick, whether the environment step returns or raises and
    whatever order the set iterates in, draws exactly two variates, both
    from the beta distribution of the truth value (1, 0). *)
Theorem cartpole_step_two_draws (w : World) :
  rng (cartpole_step w).2 = draws_after (mkTruthValue f_1 f_0) 2 (rng w).
Proof.
  destruct (cartpole_step_trace w) as (a & css & _ & _ & Hrun).
  cbv zeta in Hrun. rewrite Hrun.
  destruct (env_step (env_at_step w) (Some a))
    as [[[[[observation' reward] done] info] | ex] e]; reflexivity.
Qed.

(** X16: a tick whose environment step returns stores the observation of
    that step; afterwards the reward and the four channels of the
    observation the tick started from all carry the truth value (1, 1)
    under the step index the tick started with.  A tick whose environment
    step raises keeps the stored observation. *)
Theorem cartpole_step_records (w : World) :
  ∃ a,
    (a = 0 ∨ a = 1) ∧
    match env_step (env_at_step w) (Some a) with
    | (OK (observation', reward, _, _), _) =>
        ∃ tv w',
          cartpole_step w = (OK tv, w') ∧
          observation w' = observation' ∧
          atomspace_tv (atomspace w')
            (stamped (reward_to_atomese (PyFloat reward))
               (cartpole_step_count w)) = Some TRUE_TV ∧
          ∀ o, o ∈ observation_to_atomese (observation w) →
            atomspace_tv (atomspace w') (stamped o (cartpole_step_count w))
              = Some TRUE_TV
    | (Raise ex, _) =>
        ∃ w',
          cartpole_step w = (Raise ex, w') ∧
          observation w' = observation w
    end.
Proof.
  destruct (cartpole_step_trace w) as (a & css & Ha & Htypes & Hrun).
  cbv zeta in Hrun. exists a. split; [exact Ha |]. rewrite Hrun.
  destruct (env_step (env_at_step w) (Some a))
    as [[[[[observation' reward] done] info] | ex] e].
  2: { eexists. split; reflexivity. }
  do 2 eexists. split; [reflexivity |]. split; [reflexivity |].
  cbn [atomspace]. split; [apply atomspace_tv_head |].
  intros o Ho.
  rewrite app_comm_cons, app_assoc. apply atomspace_tv_prefix.
  - rewrite fmap_app. apply elem_of_app. right.
    apply list_elem_of_fmap.
    exists (stamped o (cartpole_step_count w), TRUE_TV).
    split; [reflexivity |].
    apply list_elem_of_In. rewrite <- in_rev. apply list_elem_of_In.
    apply list_elem_of_fmap. exists o. split; [reflexivity | exact Ho].
  - intros u Hu. apply elem_of_app in Hu as [Hu | Hu].
    + apply elem_of_cons in Hu as [Hu | Hu]; [congruence |].
      apply list_elem_of_fmap in Hu as (cs & Hcs & Hin).
      rewrite Forall_forall in Htypes. specialize (Htypes cs Hin).
      injection Hcs as Hcs _. rewrite <- Hcs in Htypes. discriminate Htypes.
    + apply list_elem_of_In in Hu. rewrite <- in_rev in Hu.
      apply list_elem_of_In, list_elem_of_fmap in Hu as (o' & Ho' & _).
      congruence.
Qed.

Lemma cartpole_step_count_result (w : World) :
  match (cartpole_step w).1 with
  | OK _ =>
      cartpole_step_count (cartpole_step w).2 = cartpole_step_count w + 1
  | Raise _ => cartpole_step_count (cartpole_step w).2 = cartpole_step_count w
  end.
Proof.
  destruct (cartpole_step_run w) as (a & asp & g & _ & ->).
  destruct (env_step (env_at_step w) (Some a))
    as [[[[[observation' reward] done] info] | ex] e]; reflexivity.
Qed.

(** X17: over any number of calls the counter never goes down and never
    skips: after [n] calls that all returned it has advanced by exactly
    [n], with one signal per call, and when one of them raised it has
    advanced by fewer than [n]. *)
Theorem ticks_count (n : nat) (w : World) :
  match (ticks n w).1 with
  | OK tvs =>
      length tvs = n ∧
      cartpole_step_count (ticks n w).2 = cartpole_step_count w + Z.of_nat n
  | Raise _ =>
      cartpole_step_count w ≤ cartpole_step_count (ticks n w).2
        < cartpole_step_count w + Z.of_nat n
  end.
Proof.
  revert w. induction n as [| n IH]; intros w.
  - simpl. split; [reflexivity | lia].
  - cbn [ticks]. rewrite bind_run.
    pose proof (cartpole_step_count_result w) as Hstep.
    destruct (cartpole_step w) as [[tv | ex] w1]; cbn [fst snd] in *.
    + rewrite bind_run. specialize (IH w1).
      destruct (ticks n w1) as [[tvs | ex] w2]; cbn [fst snd] in *.
      * destruct IH as [Hlen Hcount].
        unfold mret, M_ret. cbn [fst snd length]. split; lia.
      * lia.
    + lia.
Qed.
End ControllerExtras.

Example three_ticks_counted :
  cartpole_step_count (ticks 3 initial_world).2 = 3 ∧
  (ticks 3 initial_world).1 =
    OK [mkTruthValue f_1 f_1; mkTruthValue f_0 f_1; mkTruthValue f_0 f_1].
Proof. split; vm_compute; reflexivity. Qed.
